(** * jina/types/arrays/traversable.py: traversal paths and batching

    A shallow embedding of [TraversableSequence] (the mixin behind
    [DocumentArray], [ChunkArray] and [MatchArray]) and of the module-level
    path validator, followed by the properties of traversal, flattening and
    batching.

    Python objects live in a store: a collection is a location, and its
    contents (an ordered sequence of documents) are read from the store.
    Object identity is equality of locations, construction of a collection is
    allocation of a location that the store does not hold yet, and
    [append] is an update of the store.  Generators are modelled by what a
    consumer that drains them observes: the collections yielded, in order,
    the exception that ended the iteration (if one did) and the store
    afterwards. *)

From Stdlib Require Import Ascii String.
From stdpp Require Import gmap strings list fin_maps.

Open Scope string_scope.
Open Scope list_scope.
Open Scope nat_scope.

(** ** Python values

    The values that can be handed over as [traversal_paths] or stored in an
    attribute of a document.  [PyList] and [PyTuple] are the
    [collections.abc.Sequence] types besides [str]; [PySet] is iterable but
    not a [Sequence]. *)

#[warnings="-register-all"]
Inductive PyVal : Type :=
  | PyNone
  | PyBool (b : bool)
  | PyInt (n : Z)
  | PyStr (s : string)
  | PyList (items : list PyVal)
  | PyTuple (items : list PyVal)
  | PySet (items : list PyVal).

(** [bool(v)]. *)
Definition truthy (v : PyVal) : bool :=
  match v with
  | PyNone => false
  | PyBool b => b
  | PyInt n => negb (n =? 0)%Z
  | PyStr s => negb (String.eqb s "")
  | PyList l | PyTuple l | PySet l =>
      match l with [] => false | _ :: _ => true end
  end.

(** [isinstance(v, str)]. *)
Definition is_str (v : PyVal) : bool :=
  match v with PyStr _ => true | _ => false end.

(** [isinstance(v, Sequence)]. *)
Definition is_Sequence (v : PyVal) : bool :=
  match v with PyStr _ | PyList _ | PyTuple _ => true | _ => false end.

(** [v is None]. *)
Definition is_None (v : PyVal) : bool :=
  match v with PyNone => true | _ => false end.

(** The elements [for p in v] goes through; a string iterates over its
    characters. *)
Fixpoint chars (s : string) : list PyVal :=
  match s with
  | EmptyString => []
  | String c rest => PyStr (String c EmptyString) :: chars rest
  end.

Definition py_iter (v : PyVal) : list PyVal :=
  match v with
  | PyStr s => chars s
  | PyList l | PyTuple l | PySet l => l
  | _ => []
  end.

(** ** Exceptions *)

Inductive PyExc : Type :=
  | TypeError (msg : string)
  | ValueError (msg : string).

Definition traversal_paths_msg : string :=
  "`traversal_paths` needs to be `Sequence[str]`".

Definition batch_size_msg : string :=
  "`batch_size` should be a positive integer".

(** [f'`path`:{loc} is invalid, must be one of `c`, `r`, `m`'] *)
Definition invalid_path_msg (loc : Ascii.ascii) : string :=
  "`path`:" +:+ String loc " is invalid, must be one of `c`, `r`, `m`".

(** ** Documents, collections and the store *)

Definition loc := nat.

(** Modelled from the spec: the [Document] class is imported for type
    checking only and is missing from the sources.  A document exposes its
    chunks and its matches, each a collection object, and named attributes
    (spec 3 and 6). *)
Record Document : Type := mkDocument {
  doc_id : nat;
  chunks : loc;
  matches : loc;
  attrs : gmap string PyVal
}.

(** Modelled from the spec: reading an attribute gives its value or tells
    that it is absent (spec 6); an absent attribute reads as [None]. *)
Definition getattr (d : Document) (name : string) : PyVal :=
  default PyNone (attrs d !! name).

(** The store maps a collection object to its contents. *)
Abbreviation Store := (gmap loc (list Document)).

(** Contents of a collection.  Every reference of a Python program points to
    an object; a location that the store does not hold reads as the empty
    collection, so that the functions below are total. *)
Definition deref (h : Store) (l : loc) : list Document :=
  default [] (h !! l).

(** Modelled from the spec: the [DocumentArray] class is missing from the
    sources; a collection is constructed from an ordered sequence of
    documents (spec 6) and is a new object. *)
Definition alloc (items : list Document) (h : Store) : Store * loc :=
  let l := fresh (dom h) in (<[l := items]> h, l).

(** Modelled from the spec: [arr.append(d)], the append capability of a
    collection (spec 6); the collection is changed in place. *)
Definition append (l : loc) (d : Document) (h : Store) : Store :=
  <[l := deref h l ++ [d]]> h.

(** ** Generators

    What a consumer draining the generator from store [h] sees. *)

Record Run : Type := mkRun {
  r_heap : Store;
  r_yields : list loc;
  r_exc : option PyExc
}.

Definition Gen : Type := Store → Run.

Definition gen_ret : Gen := fun h => mkRun h [] None.

Definition gen_yield (l : loc) : Gen := fun h => mkRun h [l] None.

Definition gen_raise (e : PyExc) : Gen := fun h => mkRun h [] (Some e).

(** Sequencing: the second part runs only when the first one ended without
    an exception. *)
Definition gen_seq (g1 g2 : Gen) : Gen := fun h =>
  let r1 := g1 h in
  match r_exc r1 with
  | Some _ => r1
  | None =>
      let r2 := g2 (r_heap r1) in
      mkRun (r_heap r2) (r_yields r1 ++ r_yields r2) (r_exc r2)
  end.

Notation "g1 >>; g2" := (gen_seq g1 g2) (at level 62, right associativity).

(** [for x in xs: yield from body(x)] *)
Fixpoint gen_for {A : Type} (xs : list A) (body : A → Gen) : Gen :=
  match xs with
  | [] => gen_ret
  | x :: xs' => body x >>; gen_for xs' body
  end.

(** [yield DocumentArray(items)] *)
Definition gen_yield_new (items : list Document) : Gen := fun h =>
  let '(h', l) := alloc items h in gen_yield l h'.

(** Functions that return a collection or raise. *)
Inductive Outcome : Type :=
  | Return (l : loc)
  | Raise (e : PyExc).

Definition Res : Type := Store → Store * Outcome.

(** ** The source *)

Definition FilterFn : Type := option (Document → bool).

(** [_check_traversal_path_type(tp)]: [None] when the check passes, the
    exception raised otherwise.  [and] is short-circuit, so the elements are
    only looked at for a non-empty non-string [Sequence]. *)
Definition _check_traversal_path_type (tp : PyVal) : option PyExc :=
  if negb (truthy tp
           && negb (is_str tp)
           && is_Sequence tp
           && forallb is_str (py_iter tp))
  then Some (TypeError traversal_paths_msg)
  else None.

Definition ascii_eqb (a b : Ascii.ascii) : bool := Ascii.eqb a b.

(** [TraversableSequence._traverse(docs, path, filter_fn)] *)
Fixpoint _traverse (docs : loc) (path : string) (filter_fn : FilterFn) : Gen :=
  match path with
  | String loc rest =>
      if ascii_eqb loc "r"%char then
        _traverse docs rest filter_fn
      else if ascii_eqb loc "m"%char then
        fun h => gen_for (deref h docs)
                   (fun d => _traverse (matches d) rest filter_fn) h
      else if ascii_eqb loc "c"%char then
        fun h => gen_for (deref h docs)
                   (fun d => _traverse (chunks d) rest filter_fn) h
      else
        gen_raise (ValueError (invalid_path_msg loc))
  | EmptyString =>
      match filter_fn with
      | None => gen_yield docs
      | Some f => fun h => gen_yield_new (List.filter f (deref h docs)) h
      end
  end.

(** The body of [for p in traversal_paths] applied to one element.  After
    the check every element is a string; indexing anything else with
    [path[0]] is a [TypeError]. *)
Definition with_path (p : PyVal) (k : string → Gen) : Gen :=
  match p with
  | PyStr s => k s
  | _ => gen_raise (TypeError "path is not a string")
  end.

(** [self.traverse(traversal_paths, filter_fn)] *)
Definition traverse (self : loc) (traversal_paths : PyVal)
    (filter_fn : FilterFn) : Gen :=
  match _check_traversal_path_type traversal_paths with
  | Some e => gen_raise e
  | None =>
      gen_for (py_iter traversal_paths)
        (fun p => with_path p (fun s => _traverse self s filter_fn))
  end.

(** Modelled from the spec: [_flatten] is abstract in [TraversableSequence]
    and its body, supplied by the concrete collection type, is missing from
    the sources.  The spec (4.5 Flattener) asks for one flat collection that
    preserves encounter order and retains duplicates; it is a collection
    constructed by the flatten operation.  Draining the nested sequence lets
    its exception through. *)
Definition _flatten (sequence : Gen) : Res := fun h =>
  let r := sequence h in
  match r_exc r with
  | Some e => (r_heap r, Raise e)
  | None =>
      let '(h', l) := alloc (concat (map (deref (r_heap r)) (r_yields r))) (r_heap r) in
      (h', Return l)
  end.

(** [yield f(...)] for an [f] that returns or raises. *)
Definition gen_yield_res (f : Res) : Gen := fun h =>
  match f h with
  | (h', Return l) => gen_yield l h'
  | (h', Raise e) => gen_raise e h'
  end.

(** [self.traverse_flat_per_path(traversal_paths, filter_fn)] *)
Definition traverse_flat_per_path (self : loc) (traversal_paths : PyVal)
    (filter_fn : FilterFn) : Gen :=
  match _check_traversal_path_type traversal_paths with
  | Some e => gen_raise e
  | None =>
      gen_for (py_iter traversal_paths)
        (fun p => with_path p (fun s =>
           gen_yield_res (_flatten (_traverse self s filter_fn))))
  end.

(** [len(traversal_paths) == 1 and traversal_paths[0] == 'r'] *)
Definition is_single_r (traversal_paths : PyVal) : bool :=
  match py_iter traversal_paths with
  | [PyStr s] => String.eqb s "r"
  | _ => false
  end.

Definition no_filter (filter_fn : FilterFn) : bool :=
  match filter_fn with None => true | Some _ => false end.

(** [self.traverse_flat(traversal_paths, filter_fn)] *)
Definition traverse_flat (self : loc) (traversal_paths : PyVal)
    (filter_fn : FilterFn) : Res := fun h =>
  match _check_traversal_path_type traversal_paths with
  | Some e => (h, Raise e)
  | None =>
      if is_single_r traversal_paths && no_filter filter_fn then
        (h, Return self)
      else
        _flatten (traverse self traversal_paths filter_fn) h
  end.

(** Modelled from the spec: indexed slicing of a collection (spec 6), taken
    as the slicing of Python sequences: [l[start:stop]] for
    [0 <= start <= stop]. *)
Definition slice {A : Type} (l : list A) (start stop : nat) : list A :=
  take (stop - start) (drop start l).

(** The exact ceiling of the quotient [N / batch_size]; the slices of the
    specification side are counted with it.  What the code computes is
    [float_ceil_div] below. *)
Definition ceil_div (N batch_size : nat) : nat :=
  (N + batch_size - 1) / batch_size.

(** [a / b] rounded to the nearest integer, a tie going to the even one
    ([0 < b]). *)
Definition round_half_even (a b : Z) : Z :=
  let q := (a / b)%Z in
  let r := (a mod b)%Z in
  if (2 * r <? b)%Z then q
  else if (b <? 2 * r)%Z then (q + 1)%Z
  else if Z.even q then q else (q + 1)%Z.

(** [int(np.ceil(N / batch_size))] for a length [N] and a positive
    [batch_size].  The quotient of two Python integers is the binary64
    number nearest to the exact quotient, ties to even, subnormal numbers
    included: a quotient of at most [2^-1075] becomes [0.0], any other
    quotient up to one becomes a positive number that is at most one, and a
    quotient in [[2^e, 2^(e+1))] is rounded to a multiple of [2^(e-52)].
    The ceiling of that number is taken exactly.  Lengths of Python
    sequences are below [2^63], so the quotient never exceeds the range of
    binary64. *)
Definition float_ceil_div (N batch_size : Z) : Z :=
  if (N =? 0)%Z then 0%Z
  else if (N * 2 ^ 1075 <=? batch_size)%Z then 0%Z
  else if (N <=? batch_size)%Z then 1%Z
  else
    let e := Z.log2 (N / batch_size) in
    if (52 <=? e)%Z then
      (round_half_even N (batch_size * 2 ^ (e - 52)) * 2 ^ (e - 52))%Z
    else
      let m := round_half_even (N * 2 ^ (52 - e)) batch_size in
      (- ((- m) / 2 ^ (52 - e)))%Z.

(** [not require_attr]: [None] and the empty name are falsy. *)
Definition attr_given (require_attr : option string) : bool :=
  match require_attr with
  | Some a => negb (String.eqb a "")
  | None => false
  end.

(** The three branches that decide whether [d] is appended in the legacy
    loop. *)
Definition keeps (require_attr : option string) (d : Document) : bool :=
  match require_attr with
  | Some a =>
      if existsb (String.eqb a) ["embedding"; "blob"] then
        negb (is_None (getattr d a))
      else
        truthy (getattr d a)
  | None => true
  end.

(** The legacy loop [for d in docs: ...] with its running [_batch], and the
    final [if _batch: yield _batch]. *)
Fixpoint legacy_loop (require_attr : option string) (batch_size : nat)
    (docs : list Document) (_batch : loc) : Gen := fun h =>
  match docs with
  | [] =>
      match deref h _batch with
      | [] => gen_ret h
      | _ :: _ => gen_yield _batch h
      end
  | d :: docs' =>
      let h1 := if keeps require_attr d then append _batch d h else h in
      if Nat.eqb (length (deref h1 _batch)) batch_size then
        (gen_yield _batch >>;
         fun h2 => let '(h3, _batch') := alloc [] h2 in
                   legacy_loop require_attr batch_size docs' _batch' h3) h1
      else
        legacy_loop require_attr batch_size docs' _batch h1
  end.

(** The collection [batch] works on: [docs = self.traverse_flat(...)] when
    [traversal_paths] is truthy, [docs = self] otherwise. *)
Definition batch_docs (self : loc) (traversal_paths : PyVal) : Res := fun h =>
  if truthy traversal_paths then
    match _check_traversal_path_type traversal_paths with
    | Some e => (h, Raise e)
    | None => traverse_flat self traversal_paths None h
    end
  else (h, Return self).

(** [self.batch(batch_size, traversal_paths, require_attr, shuffle)].
    [rng] is the delegated random source: what [np.random.shuffle] makes of
    the index array.  The deprecation warnings are advisory and not
    modelled. *)
Definition batch (self : loc) (batch_size : Z) (traversal_paths : PyVal)
    (require_attr : option string) (shuffle : bool)
    (rng : list nat → list nat) : Gen := fun h =>
  if negb (0 <? batch_size)%Z then
    gen_raise (ValueError batch_size_msg) h
  else
    let bs := Z.to_nat batch_size in
    match batch_docs self traversal_paths h with
    | (h1, Raise e) => gen_raise e h1
    | (h1, Return docs) =>
        if negb (attr_given require_attr) then
          let N := length (deref h1 self) in
          let ix := seq 0 N in
          let n_batches := Z.to_nat (float_ceil_div (Z.of_nat N) batch_size) in
          let ix := if shuffle then rng ix else ix in
          gen_for (seq 0 n_batches)
            (fun i h' =>
               gen_yield_new
                 (slice (deref h' docs) (i * bs) ((i + 1) * bs)) h') h1
        else
          let '(h2, _batch) := alloc [] h1 in
          legacy_loop require_attr bs (deref h2 docs) _batch h2
    end.

(** ** Reading a run *)

(** The contents of the yielded collections, read when the generator is
    exhausted. *)
Definition contents (r : Run) : list (list Document) :=
  map (deref (r_heap r)) (r_yields r).


(** ** Specification-side notions *)

(** The symbols of the path language. *)
Definition valid_loc (c : Ascii.ascii) : bool :=
  ascii_eqb c "r"%char || ascii_eqb c "m"%char || ascii_eqb c "c"%char.

Fixpoint valid_path (path : string) : bool :=
  match path with
  | EmptyString => true
  | String c rest => valid_loc c && valid_path rest
  end.

(** The collections a walk along [path] ends in, in encounter order; a
    symbol outside the language leads nowhere. *)
Fixpoint leaves (h : Store) (docs : loc) (path : string) : list loc :=
  match path with
  | EmptyString => [docs]
  | String c rest =>
      if ascii_eqb c "r"%char then leaves h docs rest
      else if ascii_eqb c "m"%char then
        concat (map (fun d => leaves h (matches d) rest) (deref h docs))
      else if ascii_eqb c "c"%char then
        concat (map (fun d => leaves h (chunks d) rest) (deref h docs))
      else []
  end.

(** The consecutive [batch_size]-sized pieces of a list: piece [i] holds the
    positions from [i * batch_size] up to [(i + 1) * batch_size]. *)
Definition slices {A : Type} (batch_size : nat) (l : list A) : list (list A) :=
  map (fun i => slice l (i * batch_size) ((i + 1) * batch_size))
      (seq 0 (ceil_div (length l) batch_size)).

(** A list read in the order of an index array. *)
Definition reorder {A : Type} (ix : list nat) (l : list A) : list A :=
  omap (fun i => l !! i) ix.

(** A traversal-path specification the validator is meant to accept: a list
    or tuple, not empty, of strings. *)
Definition seq_of_str (tp : PyVal) : Prop :=
  ∃ l, (tp = PyList l ∨ tp = PyTuple l) ∧ l ≠ [] ∧
       ∀ p, p ∈ l → ∃ s, p = PyStr s.

(** The same with every string required to be non-empty. *)
Definition seq_of_nonempty_str (tp : PyVal) : Prop :=
  ∃ l, (tp = PyList l ∨ tp = PyTuple l) ∧ l ≠ [] ∧
       ∀ p, p ∈ l → ∃ s, p = PyStr s ∧ s ≠ "".

(** A generator that only adds objects to the store. *)
Definition frames (g : Gen) : Prop :=
  ∀ h, h ⊆ r_heap (g h).

(** A generator that only adds objects and yields none of the objects that
    were there before. *)
Definition allocates (g : Gen) : Prop :=
  ∀ h, h ⊆ r_heap (g h) ∧ ∀ l, l ∈ r_yields (g h) → l ∉ dom h.

(** A function that only adds objects and returns an object that was not
    there before. *)
Definition returns_new (f : Res) : Prop :=
  ∀ h, h ⊆ (f h).1 ∧ ∀ l, (f h).2 = Return l → l ∉ dom h.

(** The contents of the collection a function returned. *)
Definition returned (x : Store * Outcome) : option (list Document) :=
  match x.2 with
  | Return l => Some (deref x.1 l)
  | Raise _ => None
  end.

(** ** A small store

    Root collection [[A]]; [A] has chunks [[B; C]], [B] has chunks [[D]];
    nothing else has chunks or matches.  Collection 9 holds five documents
    of which three carry an embedding, one of them an empty one; collection
    10 holds five scored documents. *)

Definition doc (n c m : nat) : Document := mkDocument n c m ∅.

Definition doc_with (n : nat) (name : string) (v : PyVal) : Document :=
  mkDocument n 2 4 {[ name := v ]}.

Definition doc_A : Document := doc 100 1 2.
Definition doc_B : Document := doc 101 3 4.
Definition doc_C : Document := doc 102 5 6.
Definition doc_D : Document := doc 103 7 8.

Definition emb_1 : Document := doc 201 2 4.
Definition emb_2 : Document := doc_with 202 "embedding" (PyList [PyInt 1]).
Definition emb_3 : Document := doc_with 203 "embedding" PyNone.
Definition emb_4 : Document := doc_with 204 "embedding" (PyList []).
Definition emb_5 : Document := doc_with 205 "embedding" (PyTuple [PyInt 2]).

Definition scored (n : nat) (percent : Z) : Document :=
  doc_with n "score" (PyInt percent).

(** [lambda d: d.score > 0.5], with the score kept in hundredths. *)
Definition high_score (d : Document) : bool :=
  match getattr d "score" with
  | PyInt n => (50 <? n)%Z
  | _ => false
  end.

Definition root : loc := 0.

Definition tree : Store :=
  list_to_map
    [(0, [doc_A]); (1, [doc_B; doc_C]); (2, []); (3, [doc_D]); (4, []);
     (5, []); (6, []); (7, []); (8, []);
     (9, [emb_1; emb_2; emb_3; emb_4; emb_5]);
     (10, [scored 301 10; scored 302 70; scored 303 30; scored 304 90;
           scored 305 50])].

(** A random source that turns the index array around. *)
Definition turn_around (ix : list nat) : list nat := rev ix.

(** ** Notions for the properties beyond the claims *)

(** A store where every reference held by a document points to an object:
    the chunks and the matches of every document of every collection are
    collections of the store. *)
Definition closed (h : Store) : Prop :=
  ∀ l items d, h !! l = Some items → d ∈ items →
               chunks d ∈ dom h ∧ matches d ∈ dom h.

(** The same, as a test that can be run. *)
Definition closedb (h : Store) : bool :=
  forallb
    (fun p : loc * list Document =>
       forallb (fun d => bool_decide (chunks d ∈ dom h)
                         && bool_decide (matches d ∈ dom h)) p.2)
    (map_to_list h).

(** [filter(filter_fn, items)] when a filter is given, [items] otherwise. *)
Definition apply_filter (filter_fn : FilterFn) (items : list Document)
    : list Document :=
  match filter_fn with
  | None => items
  | Some f => List.filter f items
  end.

(** The documents a path leads to: the contents, filtered, of the collections
    the walk ends in, one after the other. *)
Definition reached (h : Store) (docs : loc) (filter_fn : FilterFn)
    (path : string) : list Document :=
  concat (map (fun l => apply_filter filter_fn (deref h l)) (leaves h docs path)).

(** A run from store [h] that ended without an exception, only added
    objects, left the store without dangling references, and yielded objects
    of the store whose contents are [cs]. *)
Definition settled (h : Store) (r : Run) (cs : list (list Document)) : Prop :=
  r_exc r = None ∧ h ⊆ r_heap r ∧ closed (r_heap r) ∧
  (∀ l, l ∈ r_yields r → l ∈ dom (r_heap r)) ∧
  contents r = cs.

(** A path made of the symbol [r] only. *)
Fixpoint only_r (path : string) : bool :=
  match path with
  | EmptyString => true
  | String c rest => ascii_eqb c "r"%char && only_r rest
  end.

(** * Properties *)

(** ** Generators: sequencing and loops *)

Section GenLaws.
Implicit Types (g : Gen) (h : Store).

Lemma gen_ret_seq g h : (gen_ret >>; g) h = g h.
Proof. unfold gen_seq, gen_ret; simpl. by destruct (g h). Qed.

Lemma gen_seq_assoc g1 g2 g3 h :
  ((g1 >>; g2) >>; g3) h = (g1 >>; (g2 >>; g3)) h.
Proof.
  unfold gen_seq.
  destruct (g1 h) as [h1 y1 [e1|]]; simpl; [done|].
  destruct (g2 h1) as [h2 y2 [e2|]]; simpl; [done|].
  by rewrite app_assoc.
Qed.

Lemma gen_seq_ext g1 g2 g2' h :
  (∀ h', g2 h' = g2' h') → (g1 >>; g2) h = (g1 >>; g2') h.
Proof. intros E. unfold gen_seq. destruct (r_exc (g1 h)); [done|]. by rewrite E. Qed.

Lemma gen_for_app {A} (xs ys : list A) (body : A → Gen) h :
  gen_for (xs ++ ys) body h = (gen_for xs body >>; gen_for ys body) h.
Proof.
  revert h. induction xs as [|x xs IH]; intros h; simpl.
  - by rewrite gen_ret_seq.
  - rewrite gen_seq_assoc. by apply gen_seq_ext.
Qed.

Lemma gen_for_map {A B} (f : A → B) (xs : list A) (body : B → Gen) h :
  gen_for (map f xs) body h = gen_for xs (fun x => body (f x)) h.
Proof.
  revert h. induction xs as [|x xs IH]; intros h; simpl; [done|].
  by apply gen_seq_ext.
Qed.

(** A loop whose rounds leave the store alone and do not raise yields the
    rounds' results one after the other. *)
Lemma gen_for_pure {A} (xs : list A) (body : A → Gen) (F : A → list loc) h :
  (∀ x, x ∈ xs → body x h = mkRun h (F x) None) →
  gen_for xs body h = mkRun h (concat (map F xs)) None.
Proof.
  induction xs as [|x xs IH]; intros Hb; simpl; [done|].
  unfold gen_seq. rewrite Hb by left. simpl.
  rewrite IH; [done|]. intros y Hy. apply Hb. by right.
Qed.

(** A loop whose rounds yield nothing and raise [e] exactly when [F] is
    not empty stops at the first such round. *)
Lemma gen_for_raise {A} (xs : list A) (body : A → Gen) (F : A → list loc) e h :
  (∀ x, body x h = mkRun h [] (match F x with [] => None | _ :: _ => Some e end)) →
  gen_for xs body h =
    mkRun h [] (match concat (map F xs) with [] => None | _ :: _ => Some e end).
Proof.
  intros Hb. induction xs as [|x xs IH]; simpl; [done|].
  unfold gen_seq. rewrite Hb. destruct (F x); simpl; [|done].
  by rewrite IH.
Qed.

Lemma gen_for_no_exc {A} (xs : list A) (body : A → Gen) h :
  (∀ x h', r_exc (body x h') = None) → r_exc (gen_for xs body h) = None.
Proof.
  intros Hb. revert h. induction xs as [|x xs IH]; intros h; simpl; [done|].
  unfold gen_seq. rewrite Hb. simpl. apply IH.
Qed.
End GenLaws.

(** ** The store only grows *)

Create HintDb store_frame.

Section Frame.
Implicit Types (g : Gen) (h : Store).

Lemma alloc_fresh items h : (alloc items h).2 ∉ dom h.
Proof. unfold alloc; simpl. apply is_fresh. Qed.

Lemma alloc_subseteq items h : h ⊆ (alloc items h).1.
Proof.
  unfold alloc; simpl. apply insert_subseteq, not_elem_of_dom, is_fresh.
Qed.

Lemma alloc_lookup items h : (alloc items h).1 !! (alloc items h).2 = Some items.
Proof. unfold alloc; simpl. apply lookup_insert_eq. Qed.

Lemma frames_ret : frames gen_ret.
Proof. by intros h. Qed.

Lemma frames_yield l : frames (gen_yield l).
Proof. by intros h. Qed.

Lemma frames_raise e : frames (gen_raise e).
Proof. by intros h. Qed.

Lemma frames_seq g1 g2 : frames g1 → frames g2 → frames (g1 >>; g2).
Proof.
  intros F1 F2 h. unfold gen_seq.
  destruct (r_exc (g1 h)); [apply F1|]. simpl.
  etrans; [apply F1 | apply F2].
Qed.

Lemma frames_for {A} (xs : list A) (body : A → Gen) :
  (∀ x, frames (body x)) → frames (gen_for xs body).
Proof.
  intros Hb. induction xs; simpl; [apply frames_ret|].
  by apply frames_seq.
Qed.

Lemma allocates_frames g : allocates g → frames g.
Proof. intros H h. apply H. Qed.

Lemma allocates_ret : allocates gen_ret.
Proof. intros h; split; [done|]. simpl. by intros l ?%elem_of_nil. Qed.

Lemma allocates_raise e : allocates (gen_raise e).
Proof. intros h; split; [done|]. simpl. by intros l ?%elem_of_nil. Qed.

Lemma allocates_yield_new items : allocates (gen_yield_new items).
Proof.
  intros h. unfold gen_yield_new, alloc, gen_yield; simpl. split.
  - apply insert_subseteq, not_elem_of_dom, is_fresh.
  - intros l ->%list_elem_of_singleton. apply is_fresh.
Qed.

Lemma allocates_seq g1 g2 : allocates g1 → allocates g2 → allocates (g1 >>; g2).
Proof.
  intros A1 A2 h. unfold gen_seq.
  destruct (A1 h) as [S1 Y1].
  destruct (r_exc (g1 h)); [done|]. simpl.
  destruct (A2 (r_heap (g1 h))) as [S2 Y2]. split.
  - by etrans.
  - intros l [Hl|Hl]%elem_of_app; [by apply Y1|].
    intros Hd. apply (Y2 l Hl). by apply (subseteq_dom _ _ S1).
Qed.

Lemma allocates_for {A} (xs : list A) (body : A → Gen) :
  (∀ x, allocates (body x)) → allocates (gen_for xs body).
Proof.
  intros Hb. induction xs; simpl; [apply allocates_ret|].
  by apply allocates_seq.
Qed.
End Frame.

#[global] Hint Resolve frames_ret frames_yield frames_raise frames_seq
  frames_for : store_frame.

(** ** The path validator *)

Lemma is_str_spec p : is_str p = true ↔ ∃ s, p = PyStr s.
Proof.
  destruct p; simpl; split; try discriminate; eauto;
    intros [s Hs]; discriminate.
Qed.

Lemma forallb_is_str l :
  forallb is_str l = true ↔ ∀ p, p ∈ l → ∃ s, p = PyStr s.
Proof.
  rewrite forallb_forall. split; intros H p Hp.
  - apply is_str_spec, H. by apply list_elem_of_In.
  - apply is_str_spec, H. by apply list_elem_of_In.
Qed.

Lemma check_passes_iff tp :
  _check_traversal_path_type tp = None ↔ seq_of_str tp.
Proof.
  unfold _check_traversal_path_type, seq_of_str. split.
  - destruct tp as [| | | |l|l|l]; simpl; rewrite ?andb_false_r; try discriminate;
      (destruct l as [|p l]; [discriminate|]);
      (destruct (forallb is_str (p :: l)) eqn:E; [|discriminate]); intros _;
      exists (p :: l); (split_and!; [by (left + right)|done|by apply forallb_is_str]).
  - intros (l & [-> | ->] & Hne & Hall); simpl;
      destruct l as [|p l]; try done;
      apply forallb_is_str in Hall; by rewrite Hall.
Qed.

Lemma check_fails tp :
  ¬ seq_of_str tp →
  _check_traversal_path_type tp = Some (TypeError traversal_paths_msg).
Proof.
  intros Hn. destruct (_check_traversal_path_type tp) as [e|] eqn:E.
  - revert E. unfold _check_traversal_path_type. by case_match; intros [= <-].
  - by apply check_passes_iff in E.
Qed.

Lemma check_list_of_strings (ps : list string) :
  ps ≠ [] → _check_traversal_path_type (PyList (map PyStr ps)) = None.
Proof.
  intros Hne. apply check_passes_iff. exists (map PyStr ps).
  split_and!; [by left|by destruct ps|].
  intros p (s & -> & _)%list_elem_of_fmap. eauto.
Qed.

(** Once the validator has accepted a specification, every element the
    loop of [traverse] goes through is a string: the [TypeError] branch of
    [with_path] is never taken. *)
Lemma traverse_accepted self tp f h :
  _check_traversal_path_type tp = None →
  ∃ ps : list string,
    py_iter tp = map PyStr ps ∧ ps ≠ [] ∧
    traverse self tp f h = gen_for ps (fun s => _traverse self s f) h.
Proof.
  intros Hc. unfold traverse. rewrite Hc.
  apply check_passes_iff in Hc as (l & Hl & Hne & Hall).
  assert (py_iter tp = l) as -> by (by destruct Hl as [-> | ->]).
  clear Hl. assert (∃ ps : list string, l = map PyStr ps) as [ps ->].
  { clear Hne. induction l as [|p l IH]; [by exists []|].
    destruct (Hall p) as [s ->]; [by left|].
    destruct IH as [ps ->]; [intros q Hq; apply Hall; by right|].
    by exists (s :: ps). }
  exists ps. split_and!; [done|by destruct ps|].
  by rewrite gen_for_map.
Qed.

(** A specification of strings is walked path by path. *)
Lemma traverse_strings self (ps : list string) f h :
  ps ≠ [] →
  traverse self (PyList (map PyStr ps)) f h =
  gen_for ps (fun s => _traverse self s f) h.
Proof.
  intros Hne. unfold traverse. rewrite check_list_of_strings by done.
  simpl. by rewrite gen_for_map.
Qed.

(** ** The traversal engine *)

Lemma traverse_frames path : ∀ docs f, frames (_traverse docs path f).
Proof.
  induction path as [|c rest IH]; intros docs f; simpl.
  - destruct f as [g|]; [|auto with store_frame].
    intros h. apply allocates_yield_new.
  - repeat case_match; auto with store_frame;
      intros h; apply frames_for; auto.
Qed.

Lemma traverse_filter_allocates path :
  ∀ docs g, allocates (_traverse docs path (Some g)).
Proof.
  induction path as [|c rest IH]; intros docs g; simpl.
  - intros h. apply allocates_yield_new.
  - repeat case_match; try apply IH; try apply allocates_raise;
      intros h; by apply allocates_for.
Qed.

Lemma traverse_no_filter path : ∀ docs h,
  valid_path path = true →
  _traverse docs path None h = mkRun h (leaves h docs path) None.
Proof.
  induction path as [|c rest IH]; intros docs h Hv; simpl in *; [done|].
  apply andb_prop in Hv as [Hc Hv]. unfold valid_loc in Hc.
  repeat case_match; try (by apply IH); try discriminate;
    apply gen_for_pure; intros d _; by apply IH.
Qed.

Lemma traverse_valid_no_exc path : ∀ docs f h,
  valid_path path = true → r_exc (_traverse docs path f h) = None.
Proof.
  induction path as [|c rest IH]; intros docs f h Hv; simpl in *.
  - by destruct f.
  - apply andb_prop in Hv as [Hc Hv]. unfold valid_loc in Hc.
    repeat case_match; try (by apply IH); try discriminate;
      apply gen_for_no_exc; intros d h'; by apply IH.
Qed.

(** A symbol outside the language raises when the walk along the symbols
    before it gets somewhere, and then nothing has been yielded. *)
Lemma traverse_invalid pre : ∀ docs c rest f h,
  valid_path pre = true → valid_loc c = false →
  _traverse docs (pre +:+ String c rest) f h =
  mkRun h [] (match leaves h docs pre with
              | [] => None
              | _ :: _ => Some (ValueError (invalid_path_msg c))
              end).
Proof.
  induction pre as [|a pre IH]; intros docs c rest f h Hv Hc; simpl in *.
  - unfold valid_loc in Hc. apply orb_false_elim in Hc as [Hc Hc3].
    apply orb_false_elim in Hc as [Hc1 Hc2]. by rewrite Hc1, Hc2, Hc3.
  - apply andb_prop in Hv as [Ha Hv]. unfold valid_loc in Ha.
    destruct (ascii_eqb a "r"); [by apply IH|].
    destruct (ascii_eqb a "m").
    { apply (gen_for_raise _ _ (fun d => leaves h (matches d) pre)).
      intros d. by apply IH. }
    destruct (ascii_eqb a "c"); [|discriminate].
    apply (gen_for_raise _ _ (fun d => leaves h (chunks d) pre)).
    intros d. by apply IH.
Qed.

(** ** Flattening and the public operations only add objects *)

Lemma flatten_returns_new g : frames g → returns_new (_flatten g).
Proof.
  intros Fg h. unfold _flatten. specialize (Fg h).
  destruct (g h) as [h1 ys [e|]]; simpl in *; [by split|]. split.
  - etrans; [done|]. apply insert_subseteq, not_elem_of_dom, is_fresh.
  - intros l [= <-] Hd. apply (is_fresh (dom h1)).
    by apply (subseteq_dom _ _ Fg).
Qed.

Lemma yield_res_allocates f : returns_new f → allocates (gen_yield_res f).
Proof.
  intros Hf h. unfold gen_yield_res. destruct (Hf h) as [Hs Hl].
  destruct (f h) as [h1 [l|e]]; simpl in *; (split; [done|]).
  - intros l' ->%list_elem_of_singleton. by apply Hl.
  - by intros l' ?%elem_of_nil.
Qed.

Lemma traverse_op_frames self tp f : frames (traverse self tp f).
Proof.
  unfold traverse. destruct (_check_traversal_path_type tp).
  - apply frames_raise.
  - apply frames_for. intros p. destruct p; simpl;
      try apply frames_raise. apply traverse_frames.
Qed.

Lemma traverse_op_filter_allocates self tp g :
  allocates (traverse self tp (Some g)).
Proof.
  unfold traverse. destruct (_check_traversal_path_type tp).
  - apply allocates_raise.
  - apply allocates_for. intros p. destruct p; simpl;
      try apply allocates_raise. apply traverse_filter_allocates.
Qed.

Lemma traverse_flat_per_path_allocates self tp f :
  allocates (traverse_flat_per_path self tp f).
Proof.
  unfold traverse_flat_per_path. destruct (_check_traversal_path_type tp).
  - apply allocates_raise.
  - apply allocates_for. intros p. destruct p; simpl;
      try apply allocates_raise.
    apply yield_res_allocates, flatten_returns_new, traverse_frames.
Qed.

Lemma traverse_flat_frames self tp f h : h ⊆ (traverse_flat self tp f h).1.
Proof.
  unfold traverse_flat. destruct (_check_traversal_path_type tp); [done|].
  case_match; [done|].
  apply flatten_returns_new, traverse_op_frames.
Qed.

(** What [traverse_flat] returns is new, the identity shortcut apart. *)
Lemma traverse_flat_new_or_self self tp f h l :
  (traverse_flat self tp f h).2 = Return l →
  l ∉ dom h ∨
  (l = self ∧ is_single_r tp = true ∧ f = None ∧
   (traverse_flat self tp f h).1 = h).
Proof.
  unfold traverse_flat. destruct (_check_traversal_path_type tp); [done|].
  destruct (is_single_r tp) eqn:Er; simpl.
  - destruct f as [g|]; simpl.
    + intros Hl. left. revert Hl.
      apply flatten_returns_new, traverse_op_frames.
    + intros [= <-]. by right.
  - intros Hl. left. revert Hl.
    apply flatten_returns_new, traverse_op_frames.
Qed.

(** ** Slices of a list *)

Section Slices.
Context {A : Type}.
Implicit Types (l c : list A) (bs : nat).

Lemma ceil_div_0 bs : ceil_div 0 bs = 0.
Proof.
  unfold ceil_div. destruct bs as [|b]; [done|].
  apply Nat.div_small. lia.
Qed.

Lemma ceil_div_small n bs : 0 < n → n ≤ bs → ceil_div n bs = 1.
Proof.
  intros Hn Hb. unfold ceil_div.
  replace (n + bs - 1) with (1 * bs + (n - 1)) by lia.
  rewrite Nat.div_add_l by lia. rewrite Nat.div_small; lia.
Qed.

Lemma ceil_div_add n bs : 0 < bs → ceil_div (bs + n) bs = S (ceil_div n bs).
Proof.
  intros Hb. unfold ceil_div.
  replace (bs + n + bs - 1) with (1 * bs + (n + bs - 1)) by lia.
  rewrite Nat.div_add_l by lia. lia.
Qed.

(** The ceiling of the quotient is the least number of [bs]-sized pieces
    that cover [n] positions. *)
Lemma ceil_div_spec n bs :
  0 < bs → n ≤ ceil_div n bs * bs ∧ (0 < n → (ceil_div n bs - 1) * bs < n).
Proof.
  intros Hb. unfold ceil_div.
  pose proof (Nat.div_mod_eq (n + bs - 1) bs) as E.
  pose proof (Nat.mod_upper_bound (n + bs - 1) bs ltac:(lia)) as U.
  set (q := (n + bs - 1) / bs) in *. set (r := (n + bs - 1) mod bs) in *.
  split; [nia|]. intros Hn. destruct q; nia.
Qed.

Lemma slices_nil bs : slices bs (@nil A) = [].
Proof. unfold slices. simpl. by rewrite ceil_div_0. Qed.

Lemma slices_small bs l : 0 < length l → length l ≤ bs → slices bs l = [l].
Proof.
  intros Hl Hb. unfold slices. rewrite ceil_div_small by done. simpl.
  unfold slice. simpl. rewrite Nat.add_0_r, Nat.sub_0_r.
  by rewrite take_ge.
Qed.

Lemma slices_full bs c l :
  0 < bs → length c = bs → slices bs (c ++ l) = c :: slices bs l.
Proof.
  intros Hb Hc. unfold slices.
  rewrite length_app, Hc, ceil_div_add by done. simpl. f_equal.
  - unfold slice. simpl. rewrite Nat.add_0_r, Nat.sub_0_r, drop_0.
    by rewrite take_app_length'.
  - rewrite <- seq_shift, map_map. apply map_ext. intros i.
    unfold slice.
    replace (S i * bs) with (length c + i * bs) by lia.
    rewrite drop_app_add. f_equal. lia.
Qed.

(** Put back together, the slices give the list. *)
Lemma concat_slices bs l : 0 < bs → concat (slices bs l) = l.
Proof.
  intros Hb. remember (length l) as n eqn:Hn. revert l Hn.
  induction n as [n IH] using lt_wf_ind. intros l Hn.
  destruct (decide (length l ≤ bs)) as [Hle|Hgt].
  - destruct l as [|x l]; [by rewrite slices_nil|].
    rewrite slices_small by (simpl in *; lia). simpl. by rewrite app_nil_r.
  - rewrite <- (take_drop bs l) at 1.
    rewrite slices_full by (rewrite ?length_take; lia). simpl.
    rewrite (IH (length (drop bs l))); [apply take_drop| |done].
    rewrite length_drop. lia.
Qed.

Lemma length_slices bs l : length (slices bs l) = ceil_div (length l) bs.
Proof. unfold slices. by rewrite length_map, length_seq. Qed.

(** Slice [i] holds [bs] elements, or what is left of the list when that is
    less; it is never empty. *)
Lemma slices_lookup bs l i c :
  0 < bs → slices bs l !! i = Some c →
  c = take bs (drop (i * bs) l) ∧
  length c = Nat.min bs (length l - i * bs) ∧ 0 < length c.
Proof.
  intros Hb Hi. unfold slices in Hi.
  rewrite list_lookup_fmap in Hi.
  destruct (seq 0 (ceil_div (length l) bs) !! i) as [j|] eqn:Ej; [|done].
  apply lookup_seq in Ej as [-> Hlt]. simpl in *.
  injection Hi as <-. unfold slice.
  replace ((i + 1) * bs - i * bs) with bs by lia.
  split; [done|]. rewrite length_take, length_drop. split; [done|].
  destruct (ceil_div_spec (length l) bs Hb) as [_ Hlow].
  destruct (decide (length l = 0)) as [E0|]; [rewrite E0, ceil_div_0 in Hlt; lia|].
  assert (i * bs < length l) by (specialize (Hlow ltac:(lia)); nia).
  lia.
Qed.

(** All slices but the last one are full. *)
Lemma slices_full_but_last bs l i c :
  0 < bs → slices bs l !! i = Some c → S i < length (slices bs l) →
  length c = bs.
Proof.
  intros Hb Hi Hlast. destruct (slices_lookup bs l i c Hb Hi) as (_ & Hlen & _).
  rewrite length_slices in Hlast.
  destruct (ceil_div_spec (length l) bs Hb) as [_ Hlow].
  assert (0 < length l) as Hpos.
  { destruct (decide (length l = 0)) as [E0|]; [|lia].
    rewrite E0, ceil_div_0 in Hlast. lia. }
  specialize (Hlow Hpos). nia.
Qed.
End Slices.

(** ** The number of chunks *)

Section FloatQuotient.
Local Open Scope Z_scope.

Lemma round_half_even_bounds a b :
  0 < b → a / b ≤ round_half_even a b ≤ a / b + 1.
Proof.
  intros Hb. unfold round_half_even.
  repeat case_match; lia.
Qed.

Lemma round_half_even_exact a b :
  0 < b → a mod b = 0 → round_half_even a b = a / b.
Proof.
  intros Hb Hr. unfold round_half_even. rewrite Hr.
  destruct (2 * 0 <? b) eqn:E; [done|]. apply Z.ltb_ge in E. lia.
Qed.

Lemma round_half_even_up a b :
  0 < b → b < 2 * (a mod b) → round_half_even a b = a / b + 1.
Proof.
  intros Hb Hr. unfold round_half_even.
  destruct (2 * (a mod b) <? b) eqn:E1; [apply Z.ltb_lt in E1; lia|].
  destruct (b <? 2 * (a mod b)) eqn:E2; [done|]. apply Z.ltb_ge in E2. lia.
Qed.

Lemma ceil_of_between m P k :
  0 < P → k * P < m → m ≤ (k + 1) * P → - ((- m) / P) = k + 1.
Proof.
  intros HP H1 H2.
  assert ((- m) / P = - (k + 1)) as ->; [|lia].
  symmetry. apply (Z.div_unique_pos (-m) P (-(k+1)) ((k + 1) * P - m)); lia.
Qed.

Lemma ceil_of_multiple P k : 0 < P → - ((- (k * P)) / P) = k.
Proof.
  intros HP. replace (- (k * P)) with ((- k) * P) by lia.
  rewrite Z.div_mul by lia. lia.
Qed.

(** For a length below [2^53] and a batch size below [2^1075] rounding
    does not show: the code computes the exact ceiling. *)
Lemma float_ceil_div_exact (N b : Z) :
  0 ≤ N < 2 ^ 53 → 0 < b < 2 ^ 1075 →
  float_ceil_div N b = (N + b - 1) / b.
Proof.
  intros [HN0 HN] [Hb0 Hb]. unfold float_ceil_div.
  destruct (N =? 0) eqn:E0.
  { apply Z.eqb_eq in E0 as ->. symmetry. apply Z.div_small. lia. }
  apply Z.eqb_neq in E0.
  destruct (N * 2 ^ 1075 <=? b) eqn:E1.
  { apply Z.leb_le in E1.
    assert (0 < 2 ^ 1075) by (apply Z.pow_pos_nonneg; lia). nia. }
  destruct (N <=? b) eqn:E2.
  { apply Z.leb_le in E2.
    apply (Z.div_unique_pos (N + b - 1) b 1 (N - 1)); lia. }
  apply Z.leb_gt in E2.
  set (k := N / b). set (r := N mod b).
  assert (N = b * k + r) as HNkr by (apply Z.div_mod; lia).
  assert (0 ≤ r < b) as Hr by (apply Z.mod_pos_bound; lia).
  assert (1 ≤ k) as Hk by (unfold k; apply Z.div_le_lower_bound; lia).
  set (e := Z.log2 k).
  destruct (Z.log2_spec k ltac:(lia)) as [Hlo Hhi]. fold e in Hlo, Hhi.
  assert (0 ≤ e) as He0 by apply Z.log2_nonneg.
  assert (e < 53) as He.
  { apply (Z.pow_lt_mono_r_iff 2); [lia|lia|]. nia. }
  assert ((N + b - 1) / b = if r =? 0 then k else k + 1) as ->.
  { destruct (r =? 0) eqn:Er.
    - apply Z.eqb_eq in Er. symmetry.
      apply (Z.div_unique_pos _ b k (b - 1)); lia.
    - apply Z.eqb_neq in Er. symmetry.
      apply (Z.div_unique_pos _ b (k + 1) (r - 1)); lia. }
  destruct (52 <=? e) eqn:E3.
  - apply Z.leb_le in E3. assert (e = 52) as Ee by lia. rewrite Ee in *.
    replace (52 - 52) with 0 by lia. rewrite Z.pow_0_r, !Z.mul_1_r.
    assert (b = 1) as -> by nia.
    assert (r = 0) as Hr0 by lia.
    rewrite round_half_even_exact by (fold r; lia). fold k.
    by rewrite Hr0.
  - apply Z.leb_gt in E3.
    set (P := 2 ^ (52 - e)).
    assert (2 ^ e * (2 * P) = 2 ^ 53) as HP.
    { unfold P. rewrite <- (Z.pow_1_r 2) at 2. rewrite <- !Z.pow_add_r by lia.
      f_equal. lia. }
    assert (2 ≤ P) as HP2.
    { unfold P. change 2 with (2 ^ 1) at 1. apply Z.pow_le_mono_r; lia. }
    assert (b < 2 * P) as HbP by nia.
    destruct (r =? 0) eqn:Er.
    + apply Z.eqb_eq in Er.
      assert (N * P = (k * P) * b) as HNP by nia.
      rewrite round_half_even_exact; [|lia|rewrite HNP; apply Z.mod_mul; lia].
      rewrite HNP, Z.div_mul by lia. apply ceil_of_multiple. lia.
    + apply Z.eqb_neq in Er.
      set (d := (r * P) / b). set (t := (r * P) mod b).
      assert (r * P = b * d + t) as Hdt by (apply Z.div_mod; lia).
      assert (0 ≤ t < b) as Ht by (apply Z.mod_pos_bound; lia).
      assert (0 ≤ d) as Hd0 by (unfold d; apply Z.div_pos; nia).
      assert (d < P) as HdP by nia.
      assert ((N * P) / b = k * P + d) as Hq.
      { symmetry. apply (Z.div_unique_pos _ b _ t); [lia|nia]. }
      assert ((N * P) mod b = t) as Hm.
      { symmetry. apply (Z.mod_unique_pos _ b (k * P + d) t); [lia|nia]. }
      apply ceil_of_between; [lia| |].
      * destruct (decide (d = 0)) as [->|Hd].
        -- rewrite round_half_even_up by (rewrite ?Hm; nia). rewrite Hq. lia.
        -- pose proof (round_half_even_bounds (N * P) b ltac:(lia)) as [Hl _].
           rewrite Hq in Hl. lia.
      * pose proof (round_half_even_bounds (N * P) b ltac:(lia)) as [_ Hu].
        rewrite Hq in Hu. lia.
Qed.

(** A batch size of at least [N * 2^1075] makes the quotient underflow. *)
Lemma float_ceil_div_underflow (N b : Z) :
  N * 2 ^ 1075 ≤ b → float_ceil_div N b = 0.
Proof.
  intros Hb. unfold float_ceil_div.
  destruct (N =? 0); [done|].
  by rewrite (proj2 (Z.leb_le _ _) Hb).
Qed.

Lemma n_batches_exact (N : nat) (batch_size : Z) :
  0 < batch_size → batch_size < 2 ^ 1075 → Z.of_nat N < 2 ^ 53 →
  Z.to_nat (float_ceil_div (Z.of_nat N) batch_size) =
  ceil_div N (Z.to_nat batch_size).
Proof.
  intros Hb0 Hb HN. rewrite float_ceil_div_exact by lia.
  unfold ceil_div.
  rewrite <- (Z2Nat.id batch_size) at 1 2 by lia.
  set (B := Z.to_nat batch_size). assert (0 < B)%nat by (unfold B; lia).
  replace (Z.of_nat N + Z.of_nat B - 1) with (Z.of_nat (N + B - 1)) by lia.
  rewrite <- Nat2Z.inj_div. apply Nat2Z.id.
Qed.

Lemma n_batches_underflow (N : nat) (batch_size : Z) :
  Z.of_nat N * 2 ^ 1075 ≤ batch_size →
  Z.to_nat (float_ceil_div (Z.of_nat N) batch_size) = 0%nat.
Proof. intros Hb. by rewrite float_ceil_div_underflow. Qed.
End FloatQuotient.

(** ** Batching *)

Lemma batch_docs_frames self tp h : h ⊆ (batch_docs self tp h).1.
Proof.
  unfold batch_docs. destruct (truthy tp); [|done].
  destruct (_check_traversal_path_type tp); [done|].
  apply traverse_flat_frames.
Qed.

Lemma deref_lookup h l items : h !! l = Some items → deref h l = items.
Proof. unfold deref. by intros ->. Qed.

Lemma deref_fresh h l : l ∉ dom h → deref h l = [].
Proof. unfold deref. by intros ->%not_elem_of_dom. Qed.

Lemma default_loop_allocates docs bs (ixs : list nat) :
  allocates (gen_for ixs (fun i h' =>
    gen_yield_new (slice (deref h' docs) (i * bs) ((i + 1) * bs)) h')).
Proof. apply allocates_for. intros i h. apply allocates_yield_new. Qed.

(** The default loop reads every chunk off the same contents of [docs]. *)
Lemma default_loop_contents docs items bs (ixs : list nat) : ∀ h,
  h !! docs = Some items →
  let r := gen_for ixs (fun i h' =>
             gen_yield_new (slice (deref h' docs) (i * bs) ((i + 1) * bs)) h') h in
  r_exc r = None ∧
  contents r = map (fun i => slice items (i * bs) ((i + 1) * bs)) ixs.
Proof.
  induction ixs as [|i ixs IH]; intros h Hd; simpl; [done|].
  unfold gen_seq, gen_yield_new at 1, alloc, gen_yield. simpl.
  set (l := fresh (dom h)).
  set (h1 := <[l := slice (deref h docs) (i * bs) ((i + 1) * bs)]> h).
  assert (l ≠ docs) as Hne.
  { intros E. apply (is_fresh (dom h)). fold l. rewrite E.
    apply elem_of_dom. eauto. }
  assert (h1 !! docs = Some items) as Hd1.
  { unfold h1. by rewrite lookup_insert_ne. }
  destruct (IH h1 Hd1) as [He Hc]. split; [done|].
  unfold contents in *. simpl. f_equal; [|done].
  pose proof (default_loop_allocates docs bs ixs h1) as [Hsub _].
  apply deref_lookup. eapply lookup_weaken; [|exact Hsub].
  unfold h1. by rewrite lookup_insert_eq, (deref_lookup _ _ _ Hd).
Qed.

Lemma append_lookup h b cur d :
  h !! b = Some cur → append b d h !! b = Some (cur ++ [d]).
Proof.
  intros Hb. unfold append. by rewrite lookup_insert_eq, (deref_lookup _ _ _ Hb).
Qed.

Lemma append_lookup_ne h b d l : l ≠ b → append b d h !! l = h !! l.
Proof. intros Hne. unfold append. by rewrite lookup_insert_ne. Qed.

Lemma append_dom h b d l : l ∈ dom h → l ∈ dom (append b d h).
Proof. unfold append. rewrite dom_insert_L. set_solver. Qed.

Lemma append_subseteq h0 h b d : h0 ⊆ h → b ∉ dom h0 → h0 ⊆ append b d h.
Proof.
  intros Hs Hb. unfold append. apply insert_subseteq_r; [|done].
  by apply not_elem_of_dom.
Qed.

(** The legacy loop writes only to batches of its own. *)
Lemma legacy_loop_allocates ra bs docs : ∀ b h h0,
  h0 ⊆ h → b ∉ dom h0 →
  h0 ⊆ r_heap (legacy_loop ra bs docs b h) ∧
  ∀ l, l ∈ r_yields (legacy_loop ra bs docs b h) → l ∉ dom h0.
Proof.
  induction docs as [|d docs IH]; intros b h h0 Hs Hb; simpl.
  - destruct (deref h b) as [|x xs]; simpl; (split; [done|]).
    + by intros l ?%elem_of_nil.
    + by intros l ->%list_elem_of_singleton.
  - set (h1 := if keeps ra d then append b d h else h).
    assert (h0 ⊆ h1) as Hs1.
    { unfold h1. destruct (keeps ra d); [by apply append_subseteq|done]. }
    destruct (Nat.eqb (length (deref h1 b)) bs); [|by apply IH].
    unfold gen_seq, gen_yield, alloc. simpl.
    set (b' := fresh (dom h1)).
    assert (b' ∉ dom h0) as Hb'.
    { intros Hd. apply (is_fresh (dom h1)). by apply (subseteq_dom _ _ Hs1). }
    destruct (IH b' (<[b' := []]> h1) h0) as [Hs2 Hy]; [|done|].
    { apply insert_subseteq_r; [by apply not_elem_of_dom|done]. }
    split; [done|].
    intros l [->|Hl]%elem_of_cons; [done|by apply Hy].
Qed.

(** The legacy loop yields the slices of what it has collected and what it
    will keep, and leaves every other object alone. *)
Lemma legacy_loop_contents ra bs docs : ∀ b h cur,
  0 < bs → h !! b = Some cur → length cur < bs →
  let r := legacy_loop ra bs docs b h in
  r_exc r = None ∧
  contents r = slices bs (cur ++ List.filter (keeps ra) docs) ∧
  ∀ l, l ≠ b → l ∈ dom h → r_heap r !! l = h !! l.
Proof.
  induction docs as [|d docs IH]; intros b h cur Hbs Hb Hlen; simpl.
  - rewrite app_nil_r, (deref_lookup _ _ _ Hb).
    destruct cur as [|x cur]; simpl.
    + by rewrite slices_nil.
    + unfold contents; simpl. rewrite (deref_lookup _ _ _ Hb).
      by rewrite slices_small by (simpl in *; lia).
  - destruct (keeps ra d) eqn:K.
    + rewrite (deref_lookup _ _ _ (append_lookup _ _ _ d Hb)).
      rewrite length_app. simpl.
      destruct (Nat.eqb_spec (length cur + 1) bs) as [Efull|Hnot].
      * unfold gen_seq, gen_yield, alloc. simpl.
        set (h1 := append b d h). set (b' := fresh (dom h1)).
        assert (b ∈ dom h1) as Hbd.
        { apply elem_of_dom. unfold h1. rewrite (append_lookup _ _ cur); eauto. }
        assert (b ≠ b') as Hne.
        { intros E. apply (is_fresh (dom h1)). fold b'. by rewrite <- E. }
        destruct (IH b' (<[b' := []]> h1) []) as (He & Hc & Hf);
          [done|apply lookup_insert_eq|simpl; lia|].
        split; [done|]. split.
        -- unfold contents in *. simpl. rewrite Hc. simpl.
           rewrite (cons_middle d), app_assoc.
           rewrite slices_full by (rewrite ?length_app; simpl; lia).
           f_equal. apply deref_lookup. rewrite Hf; [|done|].
           ++ rewrite lookup_insert_ne by done. by apply append_lookup.
           ++ rewrite dom_insert_L. by apply elem_of_union_r.
        -- intros l Hl Hd. rewrite Hf.
           ++ rewrite lookup_insert_ne.
              ** by apply append_lookup_ne.
              ** intros E. apply (is_fresh (dom h1)). fold b'. rewrite E.
                 by apply append_dom.
           ++ intros E. apply (is_fresh (dom h1)). fold b'. rewrite <- E.
              by apply append_dom.
           ++ rewrite dom_insert_L. apply elem_of_union_r. by apply append_dom.
      * destruct (IH b (append b d h) (cur ++ [d])) as (He & Hc & Hf);
          [done|by apply append_lookup|rewrite length_app; simpl; lia|].
        split; [done|]. split.
        -- by rewrite Hc, <- app_assoc.
        -- intros l Hl Hd. rewrite Hf; [by apply append_lookup_ne|done|].
           by apply append_dom.
    + rewrite (deref_lookup _ _ _ Hb).
      destruct (Nat.eqb_spec (length cur) bs) as [Efull|_]; [lia|].
      by apply IH.
Qed.

Lemma batch_allocates self batch_size tp ra sh rng :
  allocates (batch self batch_size tp ra sh rng).
Proof.
  intros h. unfold batch.
  destruct (0 <? batch_size)%Z; simpl; [|apply (allocates_raise (ValueError batch_size_msg) h)].
  pose proof (batch_docs_frames self tp h) as Hs.
  destruct (batch_docs self tp h) as [h1 [docs|e]]; simpl in *.
  - assert (∀ R : Run, (h1 ⊆ r_heap R ∧ ∀ l, l ∈ r_yields R → l ∉ dom h1) →
                       h ⊆ r_heap R ∧ ∀ l, l ∈ r_yields R → l ∉ dom h) as Hrel.
    { intros R [HR HY]. split; [by etrans|].
      intros l Hl Hd. apply (HY l Hl). by apply (subseteq_dom _ _ Hs). }
    apply Hrel. destruct (attr_given ra); simpl.
    + unfold alloc. apply legacy_loop_allocates.
      * apply insert_subseteq, not_elem_of_dom, is_fresh.
      * apply is_fresh.
    + apply default_loop_allocates.
  - split; [done|]. by intros l ?%elem_of_nil.
Qed.


(** Default mode on the collection itself, for a length below [2^53] and a
    batch size below [2^1075]: the slices of its contents. *)
Lemma batch_default_plain self batch_size tp ra sh rng h :
  (0 < batch_size)%Z → (batch_size < 2 ^ 1075)%Z →
  (Z.of_nat (length (deref h self)) < 2 ^ 53)%Z →
  truthy tp = false → attr_given ra = false →
  let r := batch self batch_size tp ra sh rng h in
  r_exc r = None ∧
  contents r = slices (Z.to_nat batch_size) (deref h self).
Proof.
  intros Hbs Hmax HN Htp Hra. unfold batch, batch_docs.
  rewrite Htp, Hra, (proj2 (Z.ltb_lt 0 batch_size) Hbs). cbv zeta.
  rewrite n_batches_exact by done. cbn [negb].
  destruct (h !! self) as [items|] eqn:Hself.
  - rewrite (deref_lookup _ _ _ Hself).
    apply (default_loop_contents self items). done.
  - unfold deref. rewrite Hself. simpl. rewrite !ceil_div_0. simpl.
    by rewrite slices_nil.
Qed.

(** Default mode on the collection itself with a batch size so large that
    the quotient underflows: no chunk at all. *)
Lemma batch_default_underflow self batch_size tp ra sh rng h :
  (0 < batch_size)%Z →
  (Z.of_nat (length (deref h self)) * 2 ^ 1075 ≤ batch_size)%Z →
  truthy tp = false → attr_given ra = false →
  batch self batch_size tp ra sh rng h = mkRun h [] None.
Proof.
  intros Hbs Hmin Htp Hra. unfold batch, batch_docs.
  rewrite Htp, Hra, (proj2 (Z.ltb_lt 0 batch_size) Hbs). cbv zeta.
  by rewrite n_batches_underflow.
Qed.

(** Default mode in general: chunk [i] is read off [docs], and the number
    of chunks comes from the length of [self]. *)
Lemma batch_default_run self batch_size tp ra sh rng h h1 docs items :
  (0 < batch_size)%Z → attr_given ra = false →
  batch_docs self tp h = (h1, Return docs) → h1 !! docs = Some items →
  let r := batch self batch_size tp ra sh rng h in
  let bs := Z.to_nat batch_size in
  r_exc r = None ∧
  contents r =
    map (fun i => slice items (i * bs) ((i + 1) * bs))
        (seq 0 (Z.to_nat (float_ceil_div
                            (Z.of_nat (length (deref h1 self))) batch_size))).
Proof.
  intros Hbs Hra Hdocs Hitems. unfold batch.
  rewrite Hdocs, Hra, (proj2 (Z.ltb_lt 0 batch_size) Hbs). cbv zeta.
  cbn [negb].
  by apply (default_loop_contents docs items).
Qed.

(** Legacy mode: the slices of the elements of [docs] that are kept. *)
Lemma batch_legacy_run self batch_size tp ra sh rng h h1 docs :
  (0 < batch_size)%Z → attr_given ra = true →
  batch_docs self tp h = (h1, Return docs) →
  let r := batch self batch_size tp ra sh rng h in
  r_exc r = None ∧
  contents r =
    slices (Z.to_nat batch_size) (List.filter (keeps ra) (deref h1 docs)).
Proof.
  intros Hbs Hra Hdocs. unfold batch. rewrite Hdocs, Hra.
  rewrite (proj2 (Z.ltb_lt 0 batch_size) Hbs).
  simpl. unfold alloc. set (b := fresh (dom h1)).
  assert (deref (<[b := []]> h1) docs = deref h1 docs) as ->.
  { unfold deref. destruct (decide (b = docs)) as [<-|Hne].
    - rewrite lookup_insert_eq.
      by rewrite (proj1 (not_elem_of_dom h1 b) (is_fresh (dom h1))).
    - by rewrite lookup_insert_ne. }
  destruct (legacy_loop_contents ra (Z.to_nat batch_size) (deref h1 docs)
              b (<[b := []]> h1) []) as (He & Hc & _);
    [lia|apply lookup_insert_eq|simpl; lia|].
  by split.
Qed.

(** * The claims *)

(** ** Default batching *)

(** C1 (the code departs from the claim).  With [traversal_paths] given, the
    number of chunks is computed from the length of the source collection
    and not from the length of the collection being batched.  Over the root
    [[A]] with paths [["c"]] and batch size 1, the flattened collection is
    [[B; C]], whose slices are [[B]] and [[C]], but only [[B]] is yielded;
    over [[B; C]] with paths [["m"]] the flattened collection is empty, and
    two empty chunks are yielded where none should be. *)
Theorem batch_counts_chunks_on_source :
  returned (batch_docs root (PyList [PyStr "c"]) tree) = Some [doc_B; doc_C] ∧
  slices 1 [doc_B; doc_C] = [[doc_B]; [doc_C]] ∧
  contents (batch root 1 (PyList [PyStr "c"]) None false id tree) = [[doc_B]] ∧
  returned (batch_docs 1 (PyList [PyStr "m"]) tree) = Some [] ∧
  contents (batch 1 1 (PyList [PyStr "m"]) None false id tree) = [[]; []].
Proof. repeat split; vm_compute; reflexivity. Qed.

(** C2 (the code departs from the claim).  The shuffled index array is
    never used to read the collection.  Over [[B; C]] with batch size 1,
    [shuffle=True] and a random source that turns the indices around, the
    slices of the reordered collection are [[C]] then [[B]], but the chunks
    yielded are [[B]] then [[C]]. *)
Theorem batch_shuffle_not_applied :
  turn_around (seq 0 2) = [1; 0] ∧
  slices 1 (reorder (turn_around (seq 0 2)) [doc_B; doc_C]) = [[doc_C]; [doc_B]] ∧
  contents (batch 1 1 PyNone None true turn_around tree) = [[doc_B]; [doc_C]] ∧
  contents (batch 1 1 PyNone None true turn_around tree) ≠
    slices 1 (reorder (turn_around (seq 0 2)) (deref tree 1)).
Proof.
  split_and!; try (vm_compute; reflexivity).
  vm_compute. intros [=].
Qed.

(** C10.  The run of [batch] in default mode on the collection itself is
    the same with [shuffle=True] as with [shuffle=False], whatever the
    random source does to the index array and whatever the batch size is:
    same chunks, same order, same contents, same store.  For a positive
    batch size below [2^1075] and a collection of fewer than [2^53]
    documents, where the floating-point quotient gives the exact number of
    chunks, the chunks are the slices of the collection in its original
    order. *)
Theorem batch_shuffle_irrelevant self batch_size rng rng' h :
  batch self batch_size PyNone None true rng h =
  batch self batch_size PyNone None false rng' h ∧
  ((0 < batch_size)%Z → (batch_size < 2 ^ 1075)%Z →
   (Z.of_nat (length (deref h self)) < 2 ^ 53)%Z →
   contents (batch self batch_size PyNone None true rng h) =
   slices (Z.to_nat batch_size) (deref h self)).
Proof.
  split; [reflexivity|]. intros Hbs Hmax HN.
  by apply (batch_default_plain self batch_size PyNone None true rng h).
Qed.

Lemma batch_shuffle_irrelevant_witness :
  (0 < 1)%Z ∧ (1 < 2 ^ 1075)%Z ∧
  (Z.of_nat (length (deref tree 1%nat)) < 2 ^ 53)%Z ∧
  batch 1 1 PyNone None true turn_around tree =
  batch 1 1 PyNone None false id tree ∧
  contents (batch 1 1 PyNone None true turn_around tree) =
  slices (Z.to_nat 1) (deref tree 1).
Proof.
  assert ((0 < 1)%Z) as Hbs by reflexivity.
  assert ((1 < 2 ^ 1075)%Z) as Hmax by reflexivity.
  assert ((Z.of_nat (length (deref tree 1%nat)) < 2 ^ 53)%Z) as HN
    by (vm_compute; reflexivity).
  split; [exact Hbs|]. split; [exact Hmax|]. split; [exact HN|].
  destruct (batch_shuffle_irrelevant 1 1 turn_around id tree) as [E S].
  split; [exact E|]. exact (S Hbs Hmax HN).
Defined.

(** ** Flattened traversal *)

Lemma concat_deref_singletons h (sub : Document → loc) (ds : list Document) :
  concat (map (deref h) (concat (map (fun d => [sub d]) ds))) =
  concat (map (fun d => deref h (sub d)) ds).
Proof. induction ds as [|d ds IH]; simpl; [done|]. by rewrite IH. Qed.

(** C3.  [traverse_flat] with the single path ["r"] and no filter returns
    the collection it was called on, the same object, and leaves the store
    as it was; with the single path ["c"] it returns an object that the
    store did not hold before, hence not the input object, whose contents
    are the chunks of the documents of the collection, in order. *)
Theorem traverse_flat_identity_and_copy (C : loc) (h : Store) :
  is_Some (h !! C) →
  traverse_flat C (PyList [PyStr "r"]) None h = (h, Return C) ∧
  traverse_flat C (PyTuple [PyStr "r"]) None h = (h, Return C) ∧
  ∃ h' l,
    traverse_flat C (PyList [PyStr "c"]) None h = (h', Return l) ∧
    (l ∉ dom h) ∧ l ≠ C ∧ h ⊆ h' ∧
    h' !! l = Some (concat (map (fun d => deref h (chunks d)) (deref h C))).
Proof.
  intros HC. split; [reflexivity|]. split; [reflexivity|].
  assert (traverse C (PyList [PyStr "c"]) None h =
          mkRun h (concat (map (fun d => [chunks d]) (deref h C))) None) as Ht.
  { change [PyStr "c"] with (map PyStr ["c"]).
    rewrite (traverse_strings C ["c"] None h) by done. simpl.
    unfold gen_seq, gen_ret.
    rewrite (gen_for_pure _ _ (fun d => [chunks d])) by done. simpl.
    by rewrite app_nil_r. }
  unfold traverse_flat, _flatten. simpl. rewrite Ht. simpl.
  rewrite concat_deref_singletons.
  eexists _, _. split; [reflexivity|].
  split_and!.
  - apply is_fresh.
  - intros E. apply (is_fresh (dom h)). rewrite E. by apply elem_of_dom.
  - apply insert_subseteq, not_elem_of_dom, is_fresh.
  - apply lookup_insert_eq.
Qed.

Lemma traverse_flat_identity_and_copy_witness :
  is_Some (tree !! root) ∧
  traverse_flat root (PyList [PyStr "r"]) None tree = (tree, Return root) ∧
  ∃ h' l,
    traverse_flat root (PyList [PyStr "c"]) None tree = (h', Return l) ∧
    l ≠ root ∧ h' !! l = Some [doc_B; doc_C].
Proof.
  assert (is_Some (tree !! root)) as HC by (vm_compute; eauto).
  split; [exact HC|].
  destruct (traverse_flat_identity_and_copy root tree HC)
    as (Hr & _ & h' & l & Hc & _ & Hne & _ & Hl).
  split; [exact Hr|]. exists h', l. split_and!; [exact Hc|exact Hne|].
  rewrite Hl. vm_compute. reflexivity.
Defined.

(** ** Traversal *)

Lemma traverse_valid_strings self (ps : list string) h :
  ps ≠ [] → Forall (fun p => valid_path p = true) ps →
  traverse self (PyList (map PyStr ps)) None h =
  mkRun h (concat (map (leaves h self) ps)) None.
Proof.
  intros Hne Hv. rewrite traverse_strings by done.
  apply gen_for_pure. intros p Hp. apply traverse_no_filter.
  by apply (proj1 (Forall_forall _ _) Hv).
Qed.

(** C4, as the code has it.  The paths of a specification are walked one
    after the other, each to its end before the next starts, in the order
    of the specification; without a filter and with paths over [r], [c],
    [m] the collections yielded are those each path leads to, path by path.
    A collection reached at the end of a path is yielded also when it is
    empty: over [[A]], where [A] has chunks [[B; C]] and [B] has chunks
    [[D]], the path ["cc"] yields [[D]] and then the empty chunks of [C],
    and the paths ["c"], ["cc"] yield [[B; C]], [[D]] and the empty chunks of
    [C]. *)
Theorem traverse_path_by_path :
  (∀ self (ps1 ps2 : list string) f h,
     ps1 ≠ [] → ps2 ≠ [] →
     traverse self (PyList (map PyStr (ps1 ++ ps2))) f h =
     (traverse self (PyList (map PyStr ps1)) f >>;
      traverse self (PyList (map PyStr ps2)) f) h) ∧
  (∀ self (ps : list string) h,
     ps ≠ [] → Forall (fun p => valid_path p = true) ps →
     traverse self (PyList (map PyStr ps)) None h =
     mkRun h (concat (map (leaves h self) ps)) None) ∧
  contents (traverse root (PyList [PyStr "cc"]) None tree) = [[doc_D]; []] ∧
  contents (traverse root (PyList [PyStr "c"; PyStr "cc"]) None tree) =
    [[doc_B; doc_C]; [doc_D]; []].
Proof.
  split_and!.
  - intros self ps1 ps2 f h H1 H2.
    rewrite traverse_strings by (by destruct ps1).
    rewrite gen_for_app. unfold gen_seq.
    by rewrite !traverse_strings by done.
  - apply traverse_valid_strings.
  - vm_compute. reflexivity.
  - vm_compute. reflexivity.
Qed.

Lemma traverse_path_by_path_witness :
  ["c"] ≠ [] ∧ ["cc"] ≠ [] ∧
  traverse root (PyList (map PyStr (["c"] ++ ["cc"]))) None tree =
  (traverse root (PyList (map PyStr ["c"])) None >>;
   traverse root (PyList (map PyStr ["cc"])) None) tree.
Proof.
  split; [discriminate|]. split; [discriminate|].
  apply (proj1 traverse_path_by_path); discriminate.
Defined.

(** The example of the claim as it is worded: two collections, [[B; C]]
    then [[D]].  The run yields a third one. *)
Lemma traverse_c_cc_yields_three :
  contents (traverse root (PyList [PyStr "c"; PyStr "cc"]) None tree) ≠
  [[doc_B; doc_C]; [doc_D]].
Proof. vm_compute. intros [=]. Qed.

(** C8.  At the end of a path, without a filter the collection reached is
    yielded as it is, the same object, and the store stays as it was; with
    a filter one object is yielded that the store did not hold before,
    whose contents are the elements of the collection that the filter
    accepts, in their order, while the collection reached and every other
    object keep their contents. *)
Theorem traverse_path_end (L : loc) (h : Store) :
  _traverse L "" None h = mkRun h [L] None ∧
  ∀ f : Document → bool,
    let r := _traverse L "" (Some f) h in
    ∃ l, r_yields r = [l] ∧ r_exc r = None ∧ (l ∉ dom h) ∧
         r_heap r !! l = Some (List.filter f (deref h L)) ∧
         deref (r_heap r) L = deref h L ∧
         h ⊆ r_heap r.
Proof.
  split; [reflexivity|]. intros f. simpl.
  unfold gen_yield_new, alloc, gen_yield. simpl.
  exists (fresh (dom h)). split_and!; try done.
  - apply is_fresh.
  - apply lookup_insert_eq.
  - unfold deref. destruct (decide (fresh (dom h) = L)) as [E|Hne].
    + rewrite E, lookup_insert_eq.
      assert (h !! L = None) as ->; [|done].
      apply not_elem_of_dom. rewrite <- E. apply is_fresh.
    + by rewrite lookup_insert_ne.
  - apply insert_subseteq, not_elem_of_dom, is_fresh.
Qed.

(** Five documents, two of them with a score above one half. *)
Example traverse_filter_by_score :
  contents (traverse 10 (PyList [PyStr "r"]) (Some high_score) tree) =
  [[scored 302 70; scored 304 90]].
Proof. vm_compute. reflexivity. Qed.

(** ** Validation and errors *)

(** C6, as the code has it.  The validator accepts exactly the lists and
    tuples that are not empty and hold only strings; the strings themselves
    may be empty.  On every other specification [traverse],
    [traverse_flat_per_path] and [traverse_flat] raise the [TypeError] of
    the validator, yield nothing and leave the store as it was. *)
Theorem check_traversal_path_type_spec (tp : PyVal) :
  (_check_traversal_path_type tp = None ↔ seq_of_str tp) ∧
  (¬ seq_of_str tp →
   ∀ self f h,
     traverse self tp f h = mkRun h [] (Some (TypeError traversal_paths_msg)) ∧
     traverse_flat_per_path self tp f h =
       mkRun h [] (Some (TypeError traversal_paths_msg)) ∧
     traverse_flat self tp f h = (h, Raise (TypeError traversal_paths_msg))).
Proof.
  split; [apply check_passes_iff|].
  intros Hn self f h. apply check_fails in Hn.
  unfold traverse, traverse_flat_per_path, traverse_flat.
  by rewrite Hn.
Qed.

Lemma check_traversal_path_type_spec_witness :
  ¬ seq_of_str (PyStr "r") ∧
  traverse root (PyStr "r") None tree =
    mkRun tree [] (Some (TypeError traversal_paths_msg)) ∧
  traverse_flat root (PyStr "r") None tree =
    (tree, Raise (TypeError traversal_paths_msg)).
Proof.
  assert (¬ seq_of_str (PyStr "r")) as Hn.
  { intros (l & [E|E] & _); discriminate. }
  split; [exact Hn|].
  destruct (proj2 (check_traversal_path_type_spec (PyStr "r")) Hn root None tree)
    as (Ht & _ & Hf).
  split; [exact Ht|exact Hf].
Defined.

(** A specification with an empty string in it is not a sequence of
    non-empty strings, yet the validator accepts it and no operation
    fails: the empty path is at its end at once. *)
Lemma check_accepts_empty_path :
  ¬ seq_of_nonempty_str (PyList [PyStr ""]) ∧
  _check_traversal_path_type (PyList [PyStr ""]) = None ∧
  traverse root (PyList [PyStr ""]) None tree = mkRun tree [root] None ∧
  r_exc (traverse_flat_per_path root (PyList [PyStr ""]) None tree) = None ∧
  returned (traverse_flat root (PyList [PyStr ""]) None tree) = Some [doc_A].
Proof.
  split_and!; try (vm_compute; reflexivity).
  intros (l & [E|E] & _ & Hall); [|discriminate].
  injection E as <-.
  destruct (Hall (PyStr "")) as (s & Es & Hs); [by left|].
  injection Es as <-. by apply Hs.
Qed.

(** C7, as the code has it.  A path over [r], [c], [m] never raises.  A
    symbol outside of them raises the [ValueError] that names it exactly
    when the walk along the symbols before it reaches a collection, at the
    first collection reached, and nothing of that path has been yielded by
    then; when the walk reaches nothing the path ends without an error.
    The error comes after everything the earlier paths of the specification
    have yielded. *)
Theorem invalid_path_raised_when_reached (docs : loc) (h : Store) :
  (∀ path f, valid_path path = true → r_exc (_traverse docs path f h) = None) ∧
  (∀ pre c rest f,
     valid_path pre = true → valid_loc c = false →
     _traverse docs (pre +:+ String c rest) f h =
     mkRun h [] (match leaves h docs pre with
                 | [] => None
                 | _ :: _ => Some (ValueError (invalid_path_msg c))
                 end)) ∧
  (∀ (ps ps' : list string) pre c rest,
     Forall (fun p => valid_path p = true) ps →
     valid_path pre = true → valid_loc c = false →
     leaves h docs pre ≠ [] →
     traverse docs (PyList (map PyStr (ps ++ (pre +:+ String c rest) :: ps')))
       None h =
     mkRun h (concat (map (leaves h docs) ps))
       (Some (ValueError (invalid_path_msg c)))).
Proof.
  split_and!.
  - intros path f Hv. by apply traverse_valid_no_exc.
  - intros pre c rest f Hv Hc. by apply traverse_invalid.
  - intros ps ps' pre c rest Hps Hv Hc Hreach.
    rewrite traverse_strings by (by destruct ps).
    rewrite gen_for_app. unfold gen_seq.
    rewrite (gen_for_pure ps _ (leaves h docs)).
    + simpl. unfold gen_seq. rewrite traverse_invalid by done.
      destruct (leaves h docs pre); [done|]. simpl. by rewrite app_nil_r.
    + intros p Hp. apply traverse_no_filter.
      by apply (proj1 (Forall_forall _ _) Hps).
Qed.

Lemma invalid_path_raised_when_reached_witness :
  valid_path "c" = true ∧ valid_loc "x" = false ∧
  leaves tree root "c" ≠ [] ∧
  traverse root (PyList [PyStr "r"; PyStr "cx"; PyStr "m"]) None tree =
  mkRun tree [root]
    (Some (ValueError "`path`:x is invalid, must be one of `c`, `r`, `m`")).
Proof.
  split; [reflexivity|]. split; [reflexivity|].
  assert (leaves tree root "c" ≠ []) as Hr by (vm_compute; discriminate).
  split; [exact Hr|].
  apply (proj2 (proj2 (invalid_path_raised_when_reached root tree))
           ["r"] ["m"] "c" "x"%char "");
    [repeat constructor|reflexivity|reflexivity|exact Hr].
Defined.

(** A path with a symbol outside [r], [c], [m] that the walk never gets to:
    over an empty collection the path ["cx"] ends without an error. *)
Lemma invalid_path_not_reached :
  valid_path "cx" = false ∧
  deref tree 2 = [] ∧
  traverse 2 (PyList [PyStr "cx"]) None tree = mkRun tree [] None.
Proof. split_and!; vm_compute; reflexivity. Qed.

(** ** Effects on the store *)

Lemma gen_for_same_heap {A} (xs : list A) (body : A → Gen) :
  (∀ x h, r_heap (body x h) = h) → ∀ h, r_heap (gen_for xs body h) = h.
Proof.
  intros Hb. induction xs as [|x xs IH]; intros h; simpl; [done|].
  unfold gen_seq. pose proof (Hb x h) as E.
  destruct (body x h) as [h1 ys [e|]]; simpl in *; [done|].
  subst h1. apply IH.
Qed.

Lemma traverse_no_filter_heap path : ∀ docs h,
  r_heap (_traverse docs path None h) = h.
Proof.
  induction path as [|c rest IH]; intros docs h; simpl; [done|].
  destruct (ascii_eqb c "r"); [apply IH|].
  destruct (ascii_eqb c "m"); [by apply gen_for_same_heap|].
  destruct (ascii_eqb c "c"); [by apply gen_for_same_heap|done].
Qed.

Lemma traverse_op_no_filter_heap self tp h :
  r_heap (traverse self tp None h) = h.
Proof.
  unfold traverse. destruct (_check_traversal_path_type tp); [done|].
  apply gen_for_same_heap. intros p h'. destruct p; simpl; try done.
  apply traverse_no_filter_heap.
Qed.

(** C9, as the code has it.  No operation changes or removes an object of
    the store: whatever was there keeps its contents.  The collections
    yielded by [traverse_flat_per_path] and by [batch], those yielded by
    [traverse] with a filter, and the collection returned by
    [traverse_flat] outside of its identity shortcut are objects that the
    store did not hold before.  [traverse] without a filter allocates
    nothing, and the identity shortcut of [traverse_flat] returns the source
    collection itself. *)
Theorem operations_only_allocate (self : loc) (tp : PyVal) (f : FilterFn)
    (batch_size : Z) (ra : option string) (sh : bool)
    (rng : list nat → list nat) (h : Store) :
  h ⊆ r_heap (traverse self tp f h) ∧
  h ⊆ r_heap (traverse_flat_per_path self tp f h) ∧
  h ⊆ (traverse_flat self tp f h).1 ∧
  h ⊆ r_heap (batch self batch_size tp ra sh rng h) ∧
  (∀ l, l ∈ r_yields (traverse_flat_per_path self tp f h) → l ∉ dom h) ∧
  (∀ l, l ∈ r_yields (batch self batch_size tp ra sh rng h) → l ∉ dom h) ∧
  (∀ g l, l ∈ r_yields (traverse self tp (Some g) h) → l ∉ dom h) ∧
  r_heap (traverse self tp None h) = h ∧
  (∀ l, (traverse_flat self tp f h).2 = Return l →
        l ∉ dom h ∨ (l = self ∧ is_single_r tp = true ∧ f = None)).
Proof.
  split_and!.
  - apply traverse_op_frames.
  - apply traverse_flat_per_path_allocates.
  - apply traverse_flat_frames.
  - apply batch_allocates.
  - apply traverse_flat_per_path_allocates.
  - apply batch_allocates.
  - intros g. apply traverse_op_filter_allocates.
  - apply traverse_op_no_filter_heap.
  - intros l Hl.
    destruct (traverse_flat_new_or_self self tp f h l Hl) as [?|(?&?&?&_)];
      [by left|by right].
Qed.

Lemma operations_only_allocate_witness :
  r_yields (batch 1 1 PyNone None false id tree) = [11; 12] ∧
  (11 ∉ dom tree) ∧ (12 ∉ dom tree) ∧
  tree ⊆ r_heap (batch 1 1 PyNone None false id tree).
Proof.
  assert (r_yields (batch 1 1 PyNone None false id tree) = [11; 12]) as Hy
    by (vm_compute; reflexivity).
  destruct (operations_only_allocate 1 PyNone None 1 None false id tree)
    as (_ & _ & _ & Hs & _ & Hb & _).
  rewrite Hy in Hb.
  split; [exact Hy|]. split; [apply Hb; by left|].
  split; [apply Hb; right; by left|exact Hs].
Defined.

(** The collections that [traverse] yields without a filter are objects of
    the store: the source collection itself for the path ["r"], the chunks
    of [A] for the path ["c"]; and [traverse_flat] with the path ["r"]
    returns the source collection. *)
Lemma traverse_yields_source_objects :
  r_yields (traverse root (PyList [PyStr "r"]) None tree) = [root] ∧
  r_yields (traverse root (PyList [PyStr "c"]) None tree) = [chunks doc_A] ∧
  (traverse_flat root (PyList [PyStr "r"]) None tree).2 = Return root ∧
  root ∈ dom tree ∧ chunks doc_A ∈ dom tree.
Proof.
  split_and!; try (vm_compute; reflexivity);
    apply elem_of_dom; vm_compute; eauto.
Qed.

(** ** Legacy batching *)

Lemma keeps_array_valued a d :
  a = "embedding" ∨ a = "blob" →
  keeps (Some a) d = true ↔ getattr d a ≠ PyNone.
Proof.
  intros [-> | ->]; simpl.
  - destruct (getattr d "embedding"); simpl; split; try done.
  - destruct (getattr d "blob"); simpl; split; try done.
Qed.

Lemma keeps_truthy a d :
  a ≠ "embedding" → a ≠ "blob" →
  keeps (Some a) d = truthy (getattr d a).
Proof.
  intros H1 H2. unfold keeps. simpl.
  apply String.eqb_neq in H1, H2. by rewrite H1, H2.
Qed.

(** C5.  With a [require_attr] that is given (a name that is not empty),
    the documents of the collection being batched are kept or dropped in
    order: for ["embedding"] and ["blob"] a document is kept exactly when
    the attribute is not [None], an empty but present value included; for
    every other name exactly when the attribute is truthy.  The chunks
    yielded are the consecutive [batch_size]-sized slices of the kept
    documents: every chunk is full except possibly the last one, which is
    not empty. *)
Theorem batch_legacy_mode (self : loc) (batch_size : Z) (tp : PyVal)
    (a : string) (sh : bool) (rng : list nat → list nat)
    (h h1 : Store) (docs : loc) :
  (0 < batch_size)%Z → a ≠ "" →
  batch_docs self tp h = (h1, Return docs) →
  let r := batch self batch_size tp (Some a) sh rng h in
  r_exc r = None ∧
  contents r =
    slices (Z.to_nat batch_size)
      (List.filter (keeps (Some a)) (deref h1 docs)) ∧
  (∀ i c, contents r !! i = Some c →
          0 < length c ≤ Z.to_nat batch_size ∧
          (S i < length (contents r) → length c = Z.to_nat batch_size)) ∧
  (∀ d, a = "embedding" ∨ a = "blob" →
        (keeps (Some a) d = true ↔ getattr d a ≠ PyNone)) ∧
  (∀ d, a = "embedding" ∨ a = "blob" → getattr d a = PyList [] →
        keeps (Some a) d = true) ∧
  (∀ d, a ≠ "embedding" → a ≠ "blob" →
        keeps (Some a) d = truthy (getattr d a)).
Proof.
  intros Hbs Ha Hdocs r.
  assert (attr_given (Some a) = true) as Hg.
  { simpl. apply negb_true_iff. by apply String.eqb_neq. }
  destruct (batch_legacy_run self batch_size tp (Some a) sh rng h h1 docs
              Hbs Hg Hdocs) as [He Hc].
  fold r in He, Hc. split_and!; try done.
  - intros i c Hi. rewrite Hc in *.
    assert (0 < Z.to_nat batch_size) as Hpos by lia.
    destruct (slices_lookup _ _ _ _ Hpos Hi) as (_ & Hlen & Hne).
    split; [lia|]. intros Hlast.
    by apply (slices_full_but_last _ _ _ _ Hpos Hi).
  - intros d Hab. by apply keeps_array_valued.
  - intros d Hab Hd. apply keeps_array_valued; [done|]. by rewrite Hd.
  - intros d. apply keeps_truthy.
Qed.

Lemma batch_legacy_mode_witness :
  (0 < 10)%Z ∧ "embedding" ≠ "" ∧
  batch_docs 9 PyNone tree = (tree, Return 9) ∧
  contents (batch 9 10 PyNone (Some "embedding") false id tree) =
  [[emb_2; emb_4; emb_5]].
Proof.
  assert ((0 < 10)%Z) as Hbs by lia.
  assert ("embedding" ≠ "") as Ha by discriminate.
  assert (batch_docs 9 PyNone tree = (tree, Return 9)) as Hd by reflexivity.
  split; [exact Hbs|]. split; [exact Ha|]. split; [exact Hd|].
  destruct (batch_legacy_mode 9 10 PyNone "embedding" false id tree tree 9
              Hbs Ha Hd) as (_ & Hc & _).
  rewrite Hc. vm_compute. reflexivity.
Defined.

(** * Further properties of the code *)

(** ** Stores without dangling references *)

Lemma closedb_closed h : closedb h = true → closed h.
Proof.
  unfold closedb, closed. rewrite forallb_forall. intros Hall l items d Hl Hd.
  specialize (Hall (l, items)). simpl in Hall.
  rewrite forallb_forall in Hall.
  assert (bool_decide (chunks d ∈ dom h) && bool_decide (matches d ∈ dom h) = true)
    as [H1 H2]%andb_prop.
  { apply Hall.
    - apply list_elem_of_In. by apply elem_of_map_to_list.
    - by apply list_elem_of_In. }
  split; by eapply bool_decide_eq_true_1.
Qed.

Lemma tree_closed : closed tree.
Proof. apply closedb_closed. vm_compute. reflexivity. Qed.

Lemma deref_subseteq (h h' : Store) l :
  h ⊆ h' → l ∈ dom h → deref h' l = deref h l.
Proof.
  intros Hs [items Hl]%elem_of_dom. unfold deref.
  by rewrite (lookup_weaken _ _ _ _ Hl Hs), Hl.
Qed.

Lemma closed_deref h l d :
  closed h → d ∈ deref h l → chunks d ∈ dom h ∧ matches d ∈ dom h.
Proof.
  intros Hc Hd. unfold deref in Hd.
  destruct (h !! l) as [items|] eqn:Hl; simpl in Hd.
  - by apply (Hc l items d).
  - by apply elem_of_nil in Hd.
Qed.

(** Constructing a collection out of documents of the store keeps the store
    free of dangling references. *)
Lemma closed_alloc h items :
  closed h →
  (∀ d, d ∈ items → chunks d ∈ dom h ∧ matches d ∈ dom h) →
  closed (alloc items h).1.
Proof.
  intros Hc Hitems l its d Hl Hd. unfold alloc in *. simpl in *.
  rewrite dom_insert_L.
  destruct (decide (fresh (dom h) = l)) as [<-|Hne].
  - rewrite lookup_insert_eq in Hl. injection Hl as <-.
    destruct (Hitems d Hd). split; by apply elem_of_union_r.
  - rewrite lookup_insert_ne in Hl by done.
    destruct (Hc l its d Hl Hd). split; by apply elem_of_union_r.
Qed.

Lemma elem_of_concat_map {A B} (F : A → list B) (xs : list A) (y : B) :
  y ∈ concat (map F xs) → ∃ x, x ∈ xs ∧ y ∈ F x.
Proof.
  intros Hy%list_elem_of_In. apply in_concat in Hy as (ys & Hys & Hy).
  apply in_map_iff in Hys as (x & <- & Hx).
  exists x. split; by apply list_elem_of_In.
Qed.

Lemma leaves_dom h path : ∀ docs,
  closed h → docs ∈ dom h → ∀ l, l ∈ leaves h docs path → l ∈ dom h.
Proof.
  induction path as [|c rest IH]; intros docs Hc Hd l Hl; simpl in Hl.
  - by apply list_elem_of_singleton in Hl as ->.
  - destruct (ascii_eqb c "r"); [by apply (IH docs)|].
    destruct (ascii_eqb c "m").
    { apply elem_of_concat_map in Hl as (d & Hdd & Hl).
      apply (IH (matches d)); [done| |done]. by apply (closed_deref h docs). }
    destruct (ascii_eqb c "c"); [|by apply elem_of_nil in Hl].
    apply elem_of_concat_map in Hl as (d & Hdd & Hl).
    apply (IH (chunks d)); [done| |done]. by apply (closed_deref h docs).
Qed.

(** Adding objects to a store without dangling references does not change
    where a path leads. *)
Lemma leaves_subseteq (h h' : Store) path : ∀ docs,
  closed h → docs ∈ dom h → h ⊆ h' →
  leaves h' docs path = leaves h docs path.
Proof.
  induction path as [|c rest IH]; intros docs Hc Hd Hs; simpl; [done|].
  rewrite (deref_subseteq h h' docs) by done.
  destruct (ascii_eqb c "r"); [by apply IH|].
  destruct (ascii_eqb c "m").
  { f_equal. apply map_ext_in. intros d Hdd%list_elem_of_In.
    apply IH; [done| |done]. by apply (closed_deref h docs). }
  destruct (ascii_eqb c "c"); [|done].
  f_equal. apply map_ext_in. intros d Hdd%list_elem_of_In.
  apply IH; [done| |done]. by apply (closed_deref h docs).
Qed.

(** ** Runs over a store without dangling references *)

Lemma settled_contents h r cs cs' : settled h r cs → cs = cs' → settled h r cs'.
Proof. by intros H <-. Qed.

Lemma gen_for_settled {A} (xs : list A) (body : A → Gen)
    (F : A → list (list Document)) : ∀ h,
  closed h →
  (∀ x, x ∈ xs → ∀ h', h ⊆ h' → closed h' → settled h' (body x h') (F x)) →
  settled h (gen_for xs body h) (concat (map F xs)).
Proof.
  induction xs as [|x xs IH]; intros h Hc Hb; simpl.
  - split_and!; try done. by intros l ?%elem_of_nil.
  - destruct (Hb x ltac:(by left) h ltac:(done) Hc) as (E1 & S1 & C1 & Y1 & K1).
    destruct (IH (r_heap (body x h)) C1) as (E2 & S2 & C2 & Y2 & K2).
    { intros y Hy h' Hs Hc'. apply Hb; [by right| |done]. by etrans. }
    unfold gen_seq. rewrite E1. simpl. split_and!; simpl.
    + done.
    + by etrans.
    + done.
    + intros l [Hl|Hl]%elem_of_app; [|by apply Y2].
      apply (subseteq_dom _ _ S2). by apply Y1.
    + unfold contents in *. simpl. rewrite map_app, K2. f_equal.
      rewrite <- K1. apply map_ext_in. intros l Hl%list_elem_of_In.
      apply deref_subseteq; [done|]. by apply Y1.
Qed.

(** The whole walk along a path over [r], [c], [m]: one collection is
    yielded for every collection the path leads to, in order, holding the
    documents of that collection that pass the filter. *)
Lemma traverse_settled path : ∀ docs f h,
  closed h → docs ∈ dom h → valid_path path = true →
  settled h (_traverse docs path f h)
    (map (fun l => apply_filter f (deref h l)) (leaves h docs path)).
Proof.
  induction path as [|c rest IH]; intros docs f h Hc Hd Hv; simpl in *.
  - destruct f as [g|]; simpl.
    + unfold gen_yield_new, gen_yield. simpl.
      pose proof (closed_alloc h (List.filter g (deref h docs)) Hc) as Hca.
      unfold alloc in *. simpl in *. split_and!; simpl.
      * done.
      * apply insert_subseteq, not_elem_of_dom, is_fresh.
      * apply Hca. intros d [Hdd _]%list_elem_of_In%filter_In.
        apply (closed_deref h docs); [done|]. by apply list_elem_of_In.
      * intros l ->%list_elem_of_singleton. rewrite dom_insert_L.
        by apply elem_of_union_l, elem_of_singleton.
      * unfold contents, deref at 1. simpl. by rewrite lookup_insert_eq.
    + split_and!; try done.
      by intros l ->%list_elem_of_singleton.
  - apply andb_prop in Hv as [Hl Hv]. unfold valid_loc in Hl.
    destruct (ascii_eqb c "r"); [by apply IH|].
    assert (∀ sub : Document → loc,
              (∀ d, d ∈ deref h docs → sub d ∈ dom h) →
              settled h
                (gen_for (deref h docs) (fun d => _traverse (sub d) rest f) h)
                (map (fun l => apply_filter f (deref h l))
                   (concat (map (fun d => leaves h (sub d) rest) (deref h docs)))))
      as Hloop.
    { intros sub Hsub. eapply settled_contents.
      - apply (gen_for_settled _ _
                 (fun d => map (fun l => apply_filter f (deref h l))
                             (leaves h (sub d) rest))); [done|].
        intros d Hdd h' Hs Hc'. eapply settled_contents.
        + apply IH; [done| |done]. apply (subseteq_dom _ _ Hs). by apply Hsub.
        + rewrite (leaves_subseteq h h') by auto.
          apply map_ext_in. intros l Hl'%list_elem_of_In. f_equal.
          apply deref_subseteq; [done|]. by apply (leaves_dom h rest (sub d)); auto.
      - by rewrite concat_map, map_map. }
    destruct (ascii_eqb c "m").
    { apply Hloop. intros d Hdd. by apply (closed_deref h docs). }
    destruct (ascii_eqb c "c"); [|discriminate].
    apply Hloop. intros d Hdd. by apply (closed_deref h docs).
Qed.

Lemma concat_concat_map {A B} (G : A → list (list B)) (xs : list A) :
  concat (concat (map G xs)) = concat (map (fun x => concat (G x)) xs).
Proof.
  induction xs as [|x xs IH]; simpl; [done|].
  by rewrite concat_app, IH.
Qed.

(** One valid path walked from the source in any later store gives what it
    gives in the store the operation started from. *)
Lemma traverse_settled_later self path f (h h' : Store) :
  closed h → self ∈ dom h → valid_path path = true →
  h ⊆ h' → closed h' →
  settled h' (_traverse self path f h')
    (map (fun l => apply_filter f (deref h l)) (leaves h self path)).
Proof.
  intros Hc Hd Hv Hs Hc'. eapply settled_contents.
  - apply traverse_settled; [done| |done]. by apply (subseteq_dom _ _ Hs).
  - rewrite (leaves_subseteq h h') by done.
    apply map_ext_in. intros l Hl%list_elem_of_In. f_equal.
    apply deref_subseteq; [done|]. by apply (leaves_dom h path self).
Qed.

Lemma traverse_op_settled self (ps : list string) f h :
  closed h → self ∈ dom h → ps ≠ [] →
  Forall (fun p => valid_path p = true) ps →
  settled h (traverse self (PyList (map PyStr ps)) f h)
    (concat (map (fun p => map (fun l => apply_filter f (deref h l))
                             (leaves h self p)) ps)).
Proof.
  intros Hc Hd Hne Hv. rewrite traverse_strings by done.
  apply gen_for_settled; [done|]. intros p Hp h' Hs Hc'.
  apply traverse_settled_later; try done.
  by apply (proj1 (Forall_forall _ _) Hv).
Qed.

(** Flattening a settled run constructs one collection out of everything
    that was yielded. *)
Lemma flatten_settled g h cs :
  settled h (g h) cs →
  ∃ h1 l, _flatten g h = (h1, Return l) ∧ (l ∉ dom h) ∧ h ⊆ h1 ∧
          closed h1 ∧ h1 !! l = Some (concat cs).
Proof.
  intros (He & Hs & Hc & Hy & Hk). unfold _flatten. rewrite He.
  pose proof (closed_alloc (r_heap (g h))
                (concat (map (deref (r_heap (g h))) (r_yields (g h)))) Hc) as Hca.
  unfold alloc in *. simpl in *.
  eexists _, _. split; [reflexivity|]. split_and!.
  - intros Hd. apply (is_fresh (dom (r_heap (g h)))).
    by apply (subseteq_dom _ _ Hs).
  - etrans; [done|]. apply insert_subseteq, not_elem_of_dom, is_fresh.
  - apply Hca. intros d (l & Hl & Hd)%elem_of_concat_map.
    by apply (closed_deref (r_heap (g h)) l).
  - rewrite lookup_insert_eq. by rewrite <- Hk.
Qed.

Lemma yield_flatten_settled g h cs :
  settled h (g h) cs →
  settled h (gen_yield_res (_flatten g) h) [concat cs] ∧
  ∀ l, l ∈ r_yields (gen_yield_res (_flatten g) h) → l ∉ dom h.
Proof.
  intros Hg. destruct (flatten_settled g h cs Hg) as (h1 & l & E & Hf & Hs & Hc & Hl).
  unfold gen_yield_res. rewrite E. simpl. split.
  - split_and!; simpl; try done.
    + intros l' ->%list_elem_of_singleton. apply elem_of_dom. eauto.
    + unfold contents. simpl. by rewrite (deref_lookup _ _ _ Hl).
  - by intros l' ->%list_elem_of_singleton.
Qed.

Lemma traverse_flat_per_path_settled self (ps : list string) f h :
  closed h → self ∈ dom h → ps ≠ [] →
  Forall (fun p => valid_path p = true) ps →
  settled h (traverse_flat_per_path self (PyList (map PyStr ps)) f h)
    (concat (map (fun p => [reached h self f p]) ps)).
Proof.
  intros Hc Hd Hne Hv. unfold traverse_flat_per_path.
  rewrite check_list_of_strings by done. simpl. rewrite gen_for_map. simpl.
  apply gen_for_settled; [done|]. intros p Hp h' Hs Hc'.
  apply yield_flatten_settled, traverse_settled_later; try done.
  by apply (proj1 (Forall_forall _ _) Hv).
Qed.

Lemma concat_singletons {A B} (G : A → B) (xs : list A) :
  concat (map (fun x => [G x]) xs) = map G xs.
Proof. induction xs as [|x xs IH]; simpl; [done|]. by rewrite IH. Qed.

Lemma tree_has (l : loc) : l ≤ 10 → l ∈ dom tree.
Proof.
  intros Hl. apply elem_of_dom.
  do 11 (destruct l as [|l]; [vm_compute; eauto|]). lia.
Qed.

(** ** Traversal over whole specifications *)

(** X1.  Over a store without dangling references, [traverse] along valid
    paths ends without an exception, changes no object, and yields, path
    after path, one collection for every collection the path leads to,
    holding the documents of that collection that pass the filter (all of
    them without a filter), in their order. *)
Theorem traverse_yields_filtered_leaves (self : loc) (ps : list string)
    (f : FilterFn) (h : Store) :
  closed h → self ∈ dom h → ps ≠ [] →
  Forall (fun p => valid_path p = true) ps →
  let r := traverse self (PyList (map PyStr ps)) f h in
  r_exc r = None ∧ h ⊆ r_heap r ∧
  length (r_yields r) = length (concat (map (leaves h self) ps)) ∧
  contents r =
    concat (map (fun p => map (fun l => apply_filter f (deref h l))
                            (leaves h self p)) ps).
Proof.
  intros Hc Hd Hne Hv r.
  destruct (traverse_op_settled self ps f h Hc Hd Hne Hv) as (He & Hs & _ & _ & Hk).
  fold r in He, Hs, Hk. split_and!; try done.
  assert (length (contents r) = length (r_yields r)) as <-
    by (unfold contents; apply length_map).
  rewrite Hk. clear. induction ps as [|p ps IH]; simpl; [done|].
  by rewrite !length_app, length_map, IH.
Qed.

Lemma traverse_yields_filtered_leaves_witness :
  closed tree ∧ 10 ∈ dom tree ∧ ["r"; "rr"] ≠ [] ∧
  Forall (fun p => valid_path p = true) ["r"; "rr"] ∧
  contents (traverse 10 (PyList (map PyStr ["r"; "rr"])) (Some high_score) tree) =
  [[scored 302 70; scored 304 90]; [scored 302 70; scored 304 90]].
Proof.
  assert (10 ∈ dom tree) as Hd by (apply tree_has; lia).
  assert (Forall (fun p => valid_path p = true) ["r"; "rr"]) as Hv
    by (repeat constructor).
  split; [exact tree_closed|]. split; [exact Hd|].
  split; [discriminate|]. split; [exact Hv|].
  destruct (traverse_yields_filtered_leaves 10 ["r"; "rr"] (Some high_score) tree
              tree_closed Hd ltac:(discriminate) Hv) as (_ & _ & _ & Hk).
  rewrite Hk. vm_compute. reflexivity.
Defined.

(** X2.  Over a store without dangling references, [traverse_flat_per_path]
    along valid paths yields exactly one collection per path, in the order
    of the paths; each is an object the store did not hold before and holds
    the documents the path leads to, filtered, in encounter order.  No
    object of the store is changed. *)
Theorem traverse_flat_per_path_one_per_path (self : loc) (ps : list string)
    (f : FilterFn) (h : Store) :
  closed h → self ∈ dom h → ps ≠ [] →
  Forall (fun p => valid_path p = true) ps →
  let r := traverse_flat_per_path self (PyList (map PyStr ps)) f h in
  r_exc r = None ∧ h ⊆ r_heap r ∧
  length (r_yields r) = length ps ∧
  contents r = map (reached h self f) ps ∧
  ∀ l, l ∈ r_yields r → l ∉ dom h.
Proof.
  intros Hc Hd Hne Hv r.
  destruct (traverse_flat_per_path_settled self ps f h Hc Hd Hne Hv)
    as (He & Hs & _ & _ & Hk).
  fold r in He, Hs, Hk. rewrite concat_singletons in Hk. split_and!; try done.
  - assert (length (contents r) = length (r_yields r)) as <-
      by (unfold contents; apply length_map).
    by rewrite Hk, length_map.
  - apply traverse_flat_per_path_allocates.
Qed.

Lemma traverse_flat_per_path_one_per_path_witness :
  closed tree ∧ root ∈ dom tree ∧ ["c"; "cc"; "m"] ≠ [] ∧
  Forall (fun p => valid_path p = true) ["c"; "cc"; "m"] ∧
  contents (traverse_flat_per_path root (PyList (map PyStr ["c"; "cc"; "m"]))
              None tree) =
  [[doc_B; doc_C]; [doc_D]; []].
Proof.
  assert (root ∈ dom tree) as Hd by (apply tree_has; unfold root; lia).
  assert (Forall (fun p => valid_path p = true) ["c"; "cc"; "m"]) as Hv
    by (repeat constructor).
  split; [exact tree_closed|]. split; [exact Hd|].
  split; [discriminate|]. split; [exact Hv|].
  destruct (traverse_flat_per_path_one_per_path root ["c"; "cc"; "m"] None tree
              tree_closed Hd ltac:(discriminate) Hv) as (_ & _ & _ & Hk & _).
  rewrite Hk. vm_compute. reflexivity.
Defined.

Lemma single_r_strings (ps : list string) :
  is_single_r (PyList (map PyStr ps)) = true → ps = ["r"].
Proof.
  unfold is_single_r. simpl. destruct ps as [|s [|s' ps]]; simpl; try done.
  by intros ->%String.eqb_eq.
Qed.

Lemma traverse_flat_returns self (ps : list string) f h :
  closed h → self ∈ dom h → ps ≠ [] →
  Forall (fun p => valid_path p = true) ps →
  returned (traverse_flat self (PyList (map PyStr ps)) f h) =
  Some (concat (map (reached h self f) ps)).
Proof.
  intros Hc Hd Hne Hv. unfold traverse_flat.
  rewrite check_list_of_strings by done.
  destruct (is_single_r (PyList (map PyStr ps)) && no_filter f) eqn:Es.
  - apply andb_prop in Es as [->%single_r_strings Hf].
    destruct f; [done|]. unfold returned, reached. simpl.
    by rewrite !app_nil_r.
  - destruct (flatten_settled (traverse self (PyList (map PyStr ps)) f) h _
                (traverse_op_settled self ps f h Hc Hd Hne Hv))
      as (h1 & l & E & _ & _ & _ & Hl).
    rewrite E. unfold returned. simpl. rewrite (deref_lookup _ _ _ Hl).
    by rewrite concat_concat_map.
Qed.

(** X3.  Over a store without dangling references and along valid paths,
    the collection [traverse_flat] returns holds the documents of all the
    collections [traverse_flat_per_path] yields, put one after the other in
    the order of the paths; documents reached more than once are kept as
    often as they are reached. *)
Theorem traverse_flat_concat_per_path (self : loc) (ps : list string)
    (f : FilterFn) (h : Store) :
  closed h → self ∈ dom h → ps ≠ [] →
  Forall (fun p => valid_path p = true) ps →
  returned (traverse_flat self (PyList (map PyStr ps)) f h) =
  Some (concat (contents
          (traverse_flat_per_path self (PyList (map PyStr ps)) f h))) ∧
  returned (traverse_flat self (PyList (map PyStr ps)) f h) =
  Some (concat (map (reached h self f) ps)).
Proof.
  intros Hc Hd Hne Hv.
  destruct (traverse_flat_per_path_settled self ps f h Hc Hd Hne Hv)
    as (_ & _ & _ & _ & Hk).
  rewrite Hk, concat_singletons.
  split; by apply traverse_flat_returns.
Qed.

Lemma traverse_flat_concat_per_path_witness :
  closed tree ∧ root ∈ dom tree ∧ ["r"; "c"; "r"] ≠ [] ∧
  Forall (fun p => valid_path p = true) ["r"; "c"; "r"] ∧
  returned (traverse_flat root (PyList (map PyStr ["r"; "c"; "r"])) None tree) =
  Some [doc_A; doc_B; doc_C; doc_A].
Proof.
  assert (root ∈ dom tree) as Hd by (apply tree_has; unfold root; lia).
  assert (Forall (fun p => valid_path p = true) ["r"; "c"; "r"]) as Hv
    by (repeat constructor).
  split; [exact tree_closed|]. split; [exact Hd|].
  split; [discriminate|]. split; [exact Hv|].
  rewrite (proj2 (traverse_flat_concat_per_path root ["r"; "c"; "r"] None tree
                    tree_closed Hd ltac:(discriminate) Hv)).
  vm_compute. reflexivity.
Defined.

Lemma filter_concat_map {A B} (g : B → bool) (G : A → list B) (xs : list A) :
  List.filter g (concat (map G xs)) =
  concat (map (fun x => List.filter g (G x)) xs).
Proof.
  induction xs as [|x xs IH]; simpl; [done|].
  by rewrite List.filter_app, IH.
Qed.

(** X4.  Filtering during the traversal is filtering afterwards: over a
    store without dangling references and along valid paths, what
    [traverse_flat] returns with a filter function holds the documents that
    [traverse_flat] returns without one, restricted to those the filter
    accepts, in the same order. *)
Theorem traverse_flat_filter_commutes (self : loc) (ps : list string)
    (g : Document → bool) (h : Store) :
  closed h → self ∈ dom h → ps ≠ [] →
  Forall (fun p => valid_path p = true) ps →
  returned (traverse_flat self (PyList (map PyStr ps)) (Some g) h) =
  List.filter g <$>
    returned (traverse_flat self (PyList (map PyStr ps)) None h).
Proof.
  intros Hc Hd Hne Hv. rewrite !traverse_flat_returns by done. simpl.
  f_equal. rewrite filter_concat_map. f_equal. apply map_ext. intros p.
  unfold reached. simpl. by rewrite filter_concat_map.
Qed.

Lemma traverse_flat_filter_commutes_witness :
  closed tree ∧ 10 ∈ dom tree ∧ ["r"] ≠ [] ∧
  Forall (fun p => valid_path p = true) ["r"] ∧
  returned (traverse_flat 10 (PyList (map PyStr ["r"])) (Some high_score) tree) =
  Some [scored 302 70; scored 304 90].
Proof.
  assert (10 ∈ dom tree) as Hd by (apply tree_has; lia).
  assert (Forall (fun p => valid_path p = true) ["r"]) as Hv
    by (repeat constructor).
  split; [exact tree_closed|]. split; [exact Hd|].
  split; [discriminate|]. split; [exact Hv|].
  rewrite (traverse_flat_filter_commutes 10 ["r"] high_score tree
             tree_closed Hd ltac:(discriminate) Hv).
  vm_compute. reflexivity.
Defined.

(** ** The path language *)

Lemma gen_seq_ret g h : (g >>; gen_ret) h = g h.
Proof.
  unfold gen_seq, gen_ret. destruct (g h) as [h1 ys [e|]]; simpl; [done|].
  by rewrite app_nil_r.
Qed.

Lemma gen_for_ext {A} (xs : list A) (body body' : A → Gen) h :
  (∀ x h', body x h' = body' x h') → gen_for xs body h = gen_for xs body' h.
Proof.
  intros Hb. revert h. induction xs as [|x xs IH]; intros h; simpl; [done|].
  unfold gen_seq. rewrite Hb. destruct (r_exc (body' x h)); [done|].
  by rewrite IH.
Qed.

(** Two loops whose rounds agree in a store that the rounds leave alone. *)
Lemma gen_for_ext_at {A} (xs : list A) (body body' : A → Gen) h :
  (∀ x, r_heap (body x h) = h) → (∀ x, body x h = body' x h) →
  gen_for xs body h = gen_for xs body' h.
Proof.
  intros Hh Hb. induction xs as [|x xs IH]; simpl; [done|].
  unfold gen_seq. rewrite <- Hb. specialize (Hh x).
  destruct (body x h) as [h1 ys [e|]]; simpl in *; [done|].
  subst h1. by rewrite IH.
Qed.

Lemma gen_for_concat_map {A B} (G : A → list B) (xs : list A) (body : B → Gen) h :
  gen_for (concat (map G xs)) body h =
  gen_for xs (fun x => gen_for (G x) body) h.
Proof.
  revert h. induction xs as [|x xs IH]; intros h; simpl; [done|].
  rewrite gen_for_app. by apply gen_seq_ext.
Qed.

(** X5.  Paths compose: without a filter, walking a path [p] over [r],
    [c], [m] followed by any [q] is walking [q] from every collection [p]
    leads to, one after the other in encounter order, stopping at the first
    exception. *)
Theorem traverse_path_composition (p : string) :
  ∀ (docs : loc) (q : string) (h : Store),
  valid_path p = true →
  _traverse docs (p +:+ q) None h =
  gen_for (leaves h docs p) (fun l => _traverse l q None) h.
Proof.
  induction p as [|c rest IH]; intros docs q h Hv; simpl in *.
  - by rewrite gen_seq_ret.
  - apply andb_prop in Hv as [Hl Hv]. unfold valid_loc in Hl.
    destruct (ascii_eqb c "r"); [by apply IH|].
    assert (∀ sub : Document → loc,
      gen_for (deref h docs) (fun d => _traverse (sub d) (rest +:+ q) None) h =
      gen_for (concat (map (fun d => leaves h (sub d) rest) (deref h docs)))
        (fun l => _traverse l q None) h) as Hloop.
    { intros sub. rewrite gen_for_concat_map. apply gen_for_ext_at.
      - intros d. apply traverse_no_filter_heap.
      - intros d. by apply IH. }
    destruct (ascii_eqb c "m"); [apply Hloop|].
    destruct (ascii_eqb c "c"); [apply Hloop|discriminate].
Qed.

Lemma traverse_path_composition_witness :
  valid_path "c" = true ∧
  _traverse root ("c" +:+ "c") None tree =
  gen_for (leaves tree root "c") (fun l => _traverse l "c" None) tree ∧
  r_yields (_traverse root "cc" None tree) = [chunks doc_B; chunks doc_C].
Proof.
  split; [reflexivity|].
  pose proof (traverse_path_composition "c" root "c" tree eq_refl) as E.
  split; [exact E|]. change "cc" with ("c" +:+ "c"). rewrite E.
  vm_compute. reflexivity.
Defined.

(** X6.  The symbol [r] is neutral wherever it stands: taking one [r] out
    of a path changes nothing of the run, whatever the rest of the path,
    the filter and the store are. *)
Theorem traverse_r_is_neutral (pre : string) :
  ∀ (post : string) (docs : loc) (f : FilterFn) (h : Store),
  _traverse docs (pre +:+ String "r"%char post) f h =
  _traverse docs (pre +:+ post) f h.
Proof.
  induction pre as [|c rest IH]; intros post docs f h; simpl; [done|].
  destruct (ascii_eqb c "r"); [apply IH|].
  destruct (ascii_eqb c "m"); [apply gen_for_ext; intros d h'; apply IH|].
  destruct (ascii_eqb c "c"); [apply gen_for_ext; intros d h'; apply IH|done].
Qed.

(** X7.  Over an empty collection, a path whose first symbol besides [r] is
    [c] or [m] yields nothing and raises nothing, whatever comes after that
    symbol; a path whose first symbol besides [r] is outside the language
    raises all the same; and a path of [r] only yields the empty collection
    itself. *)
Theorem traverse_empty_source (docs : loc) (rs : string) (h : Store) :
  deref h docs = [] → only_r rs = true →
  (∀ c rest f, valid_loc c = true → ascii_eqb c "r"%char = false →
     _traverse docs (rs +:+ String c rest) f h = mkRun h [] None) ∧
  (∀ c rest f, valid_loc c = false →
     _traverse docs (rs +:+ String c rest) f h =
     mkRun h [] (Some (ValueError (invalid_path_msg c)))) ∧
  _traverse docs rs None h = mkRun h [docs] None.
Proof.
  intros He Hr. induction rs as [|a rs IH]; simpl in *.
  - split_and!; [| |done].
    + intros c rest f Hv Hnr. unfold valid_loc in Hv. rewrite Hnr in *.
      simpl in Hv.
      destruct (ascii_eqb c "m"); [cbv beta; by rewrite He|].
      destruct (ascii_eqb c "c"); [cbv beta; by rewrite He|discriminate].
    + intros c rest f Hv. unfold valid_loc in Hv.
      apply orb_false_elim in Hv as [[H1 H2]%orb_false_elim H3].
      by rewrite H1, H2, H3.
  - apply andb_prop in Hr as [Ha Hr]. rewrite Ha. by apply IH.
Qed.

Lemma traverse_empty_source_witness :
  deref tree 2 = [] ∧ only_r "rr" = true ∧
  _traverse 2 ("rr" +:+ "cxm") None tree = mkRun tree [] None ∧
  _traverse 2 ("rr" +:+ "xc") None tree =
  mkRun tree [] (Some (ValueError (invalid_path_msg "x"))).
Proof.
  assert (deref tree 2 = []) as He by (vm_compute; reflexivity).
  split; [exact He|]. split; [reflexivity|].
  destruct (traverse_empty_source 2 "rr" tree He eq_refl) as (H1 & H2 & _).
  split; [by apply H1|by apply H2].
Defined.

(** X8.  One step: without a filter, [traverse] with the single path ["r"]
    yields the source collection and nothing else; with the single path
    ["c"] it yields the chunks of every document of the source, one
    collection per document in the order of the documents, and with ["m"]
    the matches; the store is left as it was. *)
Theorem traverse_one_step (self : loc) (h : Store) :
  traverse self (PyList [PyStr "r"]) None h = mkRun h [self] None ∧
  traverse self (PyList [PyStr "c"]) None h =
    mkRun h (map chunks (deref h self)) None ∧
  traverse self (PyList [PyStr "m"]) None h =
    mkRun h (map matches (deref h self)) None.
Proof.
  split; [reflexivity|].
  split.
  - change [PyStr "c"] with (map PyStr ["c"]).
    rewrite traverse_valid_strings by (done || by repeat constructor).
    simpl. by rewrite app_nil_r, concat_singletons.
  - change [PyStr "m"] with (map PyStr ["m"]).
    rewrite traverse_valid_strings by (done || by repeat constructor).
    simpl. by rewrite app_nil_r, concat_singletons.
Qed.

(** ** Exceptions in flattened traversal *)

Lemma invalid_path_not_r pre c rest :
  valid_loc c = false → String.eqb (pre +:+ String c rest) "r" = false.
Proof.
  intros Hc. apply String.eqb_neq. intros E.
  destruct pre as [|a pre]; simpl in E.
  - injection E as -> _. discriminate.
  - injection E as _ E. by destruct pre.
Qed.

Lemma gen_seq_raise_after g1 g2 g3 h e :
  r_exc (g1 h) = None →
  g2 (r_heap (g1 h)) = mkRun (r_heap (g1 h)) [] (Some e) →
  (g1 >>; g2 >>; g3) h = mkRun (r_heap (g1 h)) (r_yields (g1 h)) (Some e).
Proof.
  intros H1 H2. unfold gen_seq. rewrite H1, H2. simpl. by rewrite app_nil_r.
Qed.

Lemma per_path_loop_settled self (ps : list string) f h :
  closed h → self ∈ dom h → Forall (fun p => valid_path p = true) ps →
  settled h
    (gen_for ps (fun s => gen_yield_res (_flatten (_traverse self s f))) h)
    (map (reached h self f) ps).
Proof.
  intros Hc Hd Hv. rewrite <- concat_singletons.
  apply gen_for_settled; [done|]. intros p Hp h' Hs Hc'.
  apply yield_flatten_settled, traverse_settled_later; try done.
  by apply (proj1 (Forall_forall _ _) Hv).
Qed.

Lemma traverse_loop_settled self (ps : list string) f h :
  closed h → self ∈ dom h → Forall (fun p => valid_path p = true) ps →
  settled h (gen_for ps (fun s => _traverse self s f) h)
    (concat (map (fun p => map (fun l => apply_filter f (deref h l))
                             (leaves h self p)) ps)).
Proof.
  intros Hc Hd Hv. apply gen_for_settled; [done|]. intros p Hp h' Hs Hc'.
  apply traverse_settled_later; try done.
  by apply (proj1 (Forall_forall _ _) Hv).
Qed.

(** X9.  A specification whose paths are valid up to one that reaches a
    symbol outside the language: [traverse_flat_per_path] yields the
    flattened collection of every path before it and then raises the
    [ValueError] naming the symbol, while [traverse_flat], which walks all
    the paths before it flattens, raises the same error and returns
    nothing. *)
Theorem invalid_path_flat_vs_per_path (self : loc) (ps ps' : list string)
    (pre : string) (c : Ascii.ascii) (rest : string) (f : FilterFn)
    (h : Store) :
  closed h → self ∈ dom h →
  Forall (fun p => valid_path p = true) ps →
  valid_path pre = true → valid_loc c = false → leaves h self pre ≠ [] →
  let tp := PyList (map PyStr (ps ++ (pre +:+ String c rest) :: ps')) in
  let e := ValueError (invalid_path_msg c) in
  r_exc (traverse_flat_per_path self tp f h) = Some e ∧
  contents (traverse_flat_per_path self tp f h) = map (reached h self f) ps ∧
  (traverse_flat self tp f h).2 = Raise e.
Proof.
  intros Hc Hd Hv Hpre Hbad Hreach tp e.
  assert (_check_traversal_path_type tp = None) as Hcheck
    by (apply check_list_of_strings; by destruct ps).
  assert (∀ h1, h ⊆ h1 → _traverse self (pre +:+ String c rest) f h1 =
                         mkRun h1 [] (Some e)) as Hraise.
  { intros h1 Hs. rewrite traverse_invalid by done.
    rewrite (leaves_subseteq h h1) by done.
    by destruct (leaves h self pre). }
  split_and!.
  - unfold traverse_flat_per_path. rewrite Hcheck. unfold tp. simpl.
    rewrite gen_for_map. simpl. rewrite gen_for_app. cbn [gen_for].
    destruct (per_path_loop_settled self ps f h Hc Hd Hv) as (He & Hs & _).
    rewrite (gen_seq_raise_after _ _ _ h e He); [done|].
    unfold gen_yield_res at 1, _flatten at 1. by rewrite (Hraise _ Hs).
  - unfold traverse_flat_per_path. rewrite Hcheck. unfold tp. simpl.
    rewrite gen_for_map. simpl. rewrite gen_for_app. cbn [gen_for].
    destruct (per_path_loop_settled self ps f h Hc Hd Hv) as (He & Hs & _ & _ & Hk).
    rewrite (gen_seq_raise_after _ _ _ h e He); [done|].
    unfold gen_yield_res at 1, _flatten at 1. by rewrite (Hraise _ Hs).
  - unfold traverse_flat. rewrite Hcheck.
    assert (is_single_r tp = false) as ->.
    { unfold is_single_r, tp. simpl.
      destruct ps as [|p [|p' ps]]; simpl; try done.
      destruct ps'; simpl; [|done]. by apply invalid_path_not_r. }
    simpl. unfold _flatten, traverse. rewrite Hcheck. unfold tp. simpl.
    rewrite gen_for_map. simpl. rewrite gen_for_app. cbn [gen_for].
    destruct (traverse_loop_settled self ps f h Hc Hd Hv) as (He & Hs & _).
    rewrite (gen_seq_raise_after _ _ _ h e He); [done|].
    by rewrite (Hraise _ Hs).
Qed.

Lemma invalid_path_flat_vs_per_path_witness :
  closed tree ∧ root ∈ dom tree ∧
  Forall (fun p => valid_path p = true) ["c"; "cc"] ∧
  valid_path "c" = true ∧ valid_loc "x" = false ∧ leaves tree root "c" ≠ [] ∧
  contents (traverse_flat_per_path root
              (PyList (map PyStr (["c"; "cc"] ++ ("c" +:+ "xr") :: ["m"])))
              None tree) = [[doc_B; doc_C]; [doc_D]] ∧
  (traverse_flat root
     (PyList (map PyStr (["c"; "cc"] ++ ("c" +:+ "xr") :: ["m"]))) None tree).2 =
  Raise (ValueError (invalid_path_msg "x")).
Proof.
  assert (root ∈ dom tree) as Hd by (apply tree_has; unfold root; lia).
  assert (Forall (fun p => valid_path p = true) ["c"; "cc"]) as Hv
    by (repeat constructor).
  assert (leaves tree root "c" ≠ []) as Hr by (vm_compute; discriminate).
  split; [exact tree_closed|]. split; [exact Hd|]. split; [exact Hv|].
  split; [reflexivity|]. split; [reflexivity|]. split; [exact Hr|].
  destruct (invalid_path_flat_vs_per_path root ["c"; "cc"] ["m"] "c" "x"%char
              "r" None tree tree_closed Hd Hv eq_refl eq_refl Hr)
    as (_ & Hk & Hf).
  split; [|exact Hf]. rewrite Hk. vm_compute. reflexivity.
Defined.

(** ** Batching beyond the claims *)

(** X10.  Default mode on the collection itself (no traversal paths, no
    required attribute, any [shuffle]), for a positive batch size below
    [2^1075] and a collection of fewer than [2^53] documents, where the
    floating-point quotient gives the exact number of chunks: the run ends
    without an exception and yields [ceil(N / batch_size)] chunks, none
    when the collection is empty; chunk [i] holds the documents at
    positions [i * batch_size] up to [(i + 1) * batch_size], so the chunks
    put together are the collection in its order; no chunk is empty, every
    chunk but the last is full; every chunk is an object the store did not
    hold before. *)
Theorem batch_default_covers_collection (self : loc) (batch_size : Z)
    (tp : PyVal) (ra : option string) (sh : bool)
    (rng : list nat → list nat) (h : Store) :
  (0 < batch_size)%Z → (batch_size < 2 ^ 1075)%Z →
  (Z.of_nat (length (deref h self)) < 2 ^ 53)%Z →
  truthy tp = false → attr_given ra = false →
  let r := batch self batch_size tp ra sh rng h in
  let bs := Z.to_nat batch_size in
  r_exc r = None ∧
  length (r_yields r) = ceil_div (length (deref h self)) bs ∧
  (deref h self = [] → r_yields r = []) ∧
  concat (contents r) = deref h self ∧
  (∀ i c, contents r !! i = Some c →
     c = take bs (drop (i * bs) (deref h self)) ∧
     0 < length c ≤ bs ∧
     (S i < length (contents r) → length c = bs)) ∧
  (∀ l, l ∈ r_yields r → l ∉ dom h) ∧
  h ⊆ r_heap r.
Proof.
  intros Hbs Hmax HN Htp Hra r bs.
  destruct (batch_default_plain self batch_size tp ra sh rng h
              Hbs Hmax HN Htp Hra) as [He Hk]. fold r bs in He, Hk.
  assert (0 < bs) as Hpos by (unfold bs; lia).
  assert (length (r_yields r) = ceil_div (length (deref h self)) bs) as Hn.
  { rewrite <- (length_map (deref (r_heap r))). fold (contents r).
    by rewrite Hk, length_slices. }
  split_and!; try done.
  - intros E. rewrite E in Hn. simpl in Hn. rewrite ceil_div_0 in Hn.
    by destruct (r_yields r).
  - rewrite Hk. by apply concat_slices.
  - intros i c Hi. rewrite Hk in *.
    destruct (slices_lookup _ _ _ _ Hpos Hi) as (Hc & Hlen & Hne).
    split; [done|]. split; [lia|]. intros Hlast.
    by apply (slices_full_but_last _ _ _ _ Hpos Hi).
  - apply batch_allocates.
  - apply batch_allocates.
Qed.

Lemma batch_default_covers_collection_witness :
  (0 < 3)%Z ∧ (3 < 2 ^ 1075)%Z ∧
  (Z.of_nat (length (deref tree 10%nat)) < 2 ^ 53)%Z ∧
  truthy (PyList []) = false ∧ attr_given (Some "") = false ∧
  length (r_yields (batch 10 3 (PyList []) (Some "") true turn_around tree)) =
  ceil_div (length (deref tree 10)) (Z.to_nat 3) ∧
  concat (contents (batch 10 3 (PyList []) (Some "") true turn_around tree)) =
  deref tree 10.
Proof.
  assert ((0 < 3)%Z) as Hbs by reflexivity.
  assert ((3 < 2 ^ 1075)%Z) as Hmax by reflexivity.
  assert ((Z.of_nat (length (deref tree 10%nat)) < 2 ^ 53)%Z) as HN
    by (vm_compute; reflexivity).
  split; [exact Hbs|]. split; [exact Hmax|]. split; [exact HN|].
  split; [reflexivity|]. split; [reflexivity|].
  destruct (batch_default_covers_collection 10 3 (PyList []) (Some "") true
              turn_around tree Hbs Hmax HN eq_refl eq_refl)
    as (_ & Hn & _ & Hc & _).
  split; [exact Hn|exact Hc].
Defined.



(** What [traverse_flat] with the path ["r"] and a filter returns: a new
    collection of the documents of the source that pass the filter. *)
Lemma traverse_flat_r_filter self (g : Document → bool) h :
  ∃ h' l,
    traverse_flat self (PyList [PyStr "r"]) (Some g) h = (h', Return l) ∧
    (l ∉ dom h) ∧ h ⊆ h' ∧
    h' !! l = Some (List.filter g (deref h self)).
Proof.
  pose proof (traverse_flat_frames self (PyList [PyStr "r"]) (Some g) h) as Hs.
  pose proof (traverse_flat_new_or_self self (PyList [PyStr "r"]) (Some g) h) as Hn.
  revert Hs Hn. unfold traverse_flat, _flatten, traverse. simpl.
  unfold gen_seq, gen_yield_new, gen_yield, gen_ret, alloc. simpl.
  intros Hs Hn. eexists _, _. split; [reflexivity|].
  split_and!.
  - by destruct (Hn _ eq_refl) as [?|(_ & _ & ? & _)].
  - done.
  - rewrite lookup_insert_eq. f_equal. rewrite app_nil_r.
    unfold deref at 1. by rewrite lookup_insert_eq.
Qed.

(** X12.  The legacy mode is the composition its deprecation notice
    recommends: for a positive batch size below [2^1075], a collection of
    fewer than [2^53] documents and a required attribute that is given, the
    chunks of [batch(batch_size, require_attr=a)] hold the same documents,
    chunk by chunk, as the chunks of [batch(batch_size)] run on
    [traverse_flat(['r'], filter_fn)] where the filter is the test the
    legacy loop applies; the shuffle flags do not matter.  (Beyond these
    bounds the floating-point quotient of the default mode is not the exact
    number of chunks, and the two differ.) *)
Theorem batch_legacy_as_filter_then_batch (self : loc) (batch_size : Z)
    (a : string) (sh sh' : bool) (rng rng' : list nat → list nat) (h : Store) :
  (0 < batch_size)%Z → (batch_size < 2 ^ 1075)%Z →
  (Z.of_nat (length (deref h self)) < 2 ^ 53)%Z →
  a ≠ "" →
  ∃ h' l,
    traverse_flat self (PyList [PyStr "r"]) (Some (keeps (Some a))) h =
      (h', Return l) ∧
    contents (batch self batch_size PyNone (Some a) sh rng h) =
    contents (batch l batch_size PyNone None sh' rng' h').
Proof.
  intros Hbs Hmax HN Ha.
  destruct (traverse_flat_r_filter self (keeps (Some a)) h)
    as (h' & l & E & _ & _ & Hl).
  exists h', l. split; [exact E|].
  assert (attr_given (Some a) = true) as Hg.
  { simpl. apply negb_true_iff. by apply String.eqb_neq. }
  destruct (batch_legacy_run self batch_size PyNone (Some a) sh rng h h self
              Hbs Hg eq_refl) as [_ ->].
  assert ((Z.of_nat (length (deref h' l)) < 2 ^ 53)%Z) as HN'.
  { rewrite (deref_lookup _ _ _ Hl).
    pose proof (List.filter_length_le (keeps (Some a)) (deref h self)). lia. }
  destruct (batch_default_plain l batch_size PyNone None sh' rng' h'
              Hbs Hmax HN' eq_refl eq_refl) as [_ ->].
  by rewrite (deref_lookup _ _ _ Hl).
Qed.

Lemma batch_legacy_as_filter_then_batch_witness :
  (0 < 2)%Z ∧ (2 < 2 ^ 1075)%Z ∧
  (Z.of_nat (length (deref tree 9%nat)) < 2 ^ 53)%Z ∧ "embedding" ≠ "" ∧
  ∃ h' l,
    traverse_flat 9 (PyList [PyStr "r"]) (Some (keeps (Some "embedding"))) tree =
      (h', Return l) ∧
    contents (batch 9 2 PyNone (Some "embedding") false id tree) =
    contents (batch l 2 PyNone None true turn_around h').
Proof.
  assert ((0 < 2)%Z) as Hbs by reflexivity.
  assert ((2 < 2 ^ 1075)%Z) as Hmax by reflexivity.
  assert ((Z.of_nat (length (deref tree 9%nat)) < 2 ^ 53)%Z) as HN
    by (vm_compute; reflexivity).
  assert ("embedding" ≠ "") as Ha by discriminate.
  split; [exact Hbs|]. split; [exact Hmax|]. split; [exact HN|].
  split; [exact Ha|].
  exact (batch_legacy_as_filter_then_batch 9 2 "embedding" false true id
           turn_around tree Hbs Hmax HN Ha).
Defined.

Lemma filter_all_kept {A} (g : A → bool) (l : list A) :
  (∀ x, x ∈ l → g x = true) → List.filter g l = l.
Proof.
  induction l as [|x l IH]; intros Hall; simpl; [done|].
  rewrite (Hall x) by left. f_equal. apply IH. intros y Hy. apply Hall. by right.
Qed.

Lemma filter_none_kept {A} (g : A → bool) (l : list A) :
  (∀ x, x ∈ l → g x = false) → List.filter g l = [].
Proof.
  induction l as [|x l IH]; intros Hall; simpl; [done|].
  rewrite (Hall x) by left. apply IH. intros y Hy. apply Hall. by right.
Qed.

(** X13.  The two ends of the legacy mode, for a positive batch size and a
    required attribute that is given: when every document of the collection
    passes the test, the batch size is below [2^1075] and the collection
    has fewer than [2^53] documents, the chunks hold the same documents as
    the chunks of the default mode; when no document passes, nothing is
    yielded, the empty running batch included. *)
Theorem batch_legacy_all_or_none (self : loc) (batch_size : Z) (a : string)
    (sh sh' : bool) (rng rng' : list nat → list nat) (h : Store) :
  (0 < batch_size)%Z → a ≠ "" →
  ((batch_size < 2 ^ 1075)%Z →
   (Z.of_nat (length (deref h self)) < 2 ^ 53)%Z →
   (∀ d, d ∈ deref h self → keeps (Some a) d = true) →
   contents (batch self batch_size PyNone (Some a) sh rng h) =
   contents (batch self batch_size PyNone None sh' rng' h)) ∧
  ((∀ d, d ∈ deref h self → keeps (Some a) d = false) →
   r_yields (batch self batch_size PyNone (Some a) sh rng h) = [] ∧
   r_exc (batch self batch_size PyNone (Some a) sh rng h) = None).
Proof.
  intros Hbs Ha.
  assert (attr_given (Some a) = true) as Hg.
  { simpl. apply negb_true_iff. by apply String.eqb_neq. }
  destruct (batch_legacy_run self batch_size PyNone (Some a) sh rng h h self
              Hbs Hg eq_refl) as [He Hk].
  split.
  - intros Hmax HN Hall. rewrite Hk.
    destruct (batch_default_plain self batch_size PyNone None sh' rng' h
                Hbs Hmax HN eq_refl eq_refl) as [_ ->].
    by rewrite filter_all_kept.
  - intros Hnone. split; [|done].
    rewrite filter_none_kept, slices_nil in Hk by done.
    unfold contents in Hk.
    by destruct (r_yields (batch self batch_size PyNone (Some a) sh rng h)).
Qed.

Lemma batch_legacy_all_or_none_witness :
  (0 < 2)%Z ∧ "score" ≠ "" ∧ "embedding" ≠ "" ∧ (2 < 2 ^ 1075)%Z ∧
  (Z.of_nat (length (deref tree 10%nat)) < 2 ^ 53)%Z ∧
  (∀ d, d ∈ deref tree 10 → keeps (Some "score") d = true) ∧
  contents (batch 10 2 PyNone (Some "score") false id tree) =
  contents (batch 10 2 PyNone None false id tree) ∧
  (∀ d, d ∈ deref tree 10 → keeps (Some "embedding") d = false) ∧
  r_yields (batch 10 2 PyNone (Some "embedding") false id tree) = [].
Proof.
  assert ((0 < 2)%Z) as Hbs by reflexivity.
  assert ((2 < 2 ^ 1075)%Z) as Hmax by reflexivity.
  assert ((Z.of_nat (length (deref tree 10%nat)) < 2 ^ 53)%Z) as HN
    by (vm_compute; reflexivity).
  assert ("score" ≠ "") as Ha by discriminate.
  assert ("embedding" ≠ "") as Ha' by discriminate.
  assert (∀ d, d ∈ deref tree 10 → keeps (Some "score") d = true) as Hall.
  { intros d Hd. change (deref tree 10) with
      [scored 301 10; scored 302 70; scored 303 30; scored 304 90; scored 305 50]
      in Hd.
    repeat (apply elem_of_cons in Hd as [->|Hd]; [vm_compute; reflexivity|]).
    by apply elem_of_nil in Hd. }
  assert (∀ d, d ∈ deref tree 10 → keeps (Some "embedding") d = false) as Hnone.
  { intros d Hd. change (deref tree 10) with
      [scored 301 10; scored 302 70; scored 303 30; scored 304 90; scored 305 50]
      in Hd.
    repeat (apply elem_of_cons in Hd as [->|Hd]; [vm_compute; reflexivity|]).
    by apply elem_of_nil in Hd. }
  split; [exact Hbs|]. split; [exact Ha|]. split; [exact Ha'|].
  split; [exact Hmax|]. split; [exact HN|].
  split; [exact Hall|].
  split.
  { exact (proj1 (batch_legacy_all_or_none 10 2 "score" false false id id tree
                    Hbs Ha) Hmax HN Hall). }
  split; [exact Hnone|].
  exact (proj1 (proj2 (batch_legacy_all_or_none 10 2 "embedding" false false
                         id id tree Hbs Ha') Hnone)).
Defined.

(** X14.  The filter decides what the yielded collections hold, never how
    many there are: over a store without dangling references and along
    valid paths, [traverse] with a filter yields as many collections as
    without one, the i-th holding the documents of the i-th that the filter
    accepts; with a filter every yielded collection is a new object, even
    when the filter accepts everything, and without one every yielded
    collection is an object of the store. *)
Theorem traverse_filter_keeps_shape (self : loc) (ps : list string)
    (g : Document → bool) (h : Store) :
  closed h → self ∈ dom h → ps ≠ [] →
  Forall (fun p => valid_path p = true) ps →
  let with_filter := traverse self (PyList (map PyStr ps)) (Some g) h in
  let without := traverse self (PyList (map PyStr ps)) None h in
  contents with_filter = map (List.filter g) (contents without) ∧
  length (r_yields with_filter) = length (r_yields without) ∧
  (∀ l, l ∈ r_yields with_filter → l ∉ dom h) ∧
  (∀ l, l ∈ r_yields without → l ∈ dom h).
Proof.
  intros Hc Hd Hne Hv wf wo.
  destruct (traverse_op_settled self ps (Some g) h Hc Hd Hne Hv)
    as (_ & _ & _ & _ & Hk1).
  destruct (traverse_op_settled self ps None h Hc Hd Hne Hv)
    as (_ & _ & _ & _ & Hk2).
  fold wf in Hk1. fold wo in Hk2.
  assert (contents wf = map (List.filter g) (contents wo)) as Hk.
  { rewrite Hk1, Hk2. simpl. rewrite concat_map, map_map.
    f_equal. apply map_ext. intros p. by rewrite map_map. }
  split_and!.
  - exact Hk.
  - rewrite <- (length_map (deref (r_heap wf))), <- (length_map (deref (r_heap wo))).
    fold (contents wf) (contents wo). by rewrite Hk, length_map.
  - apply traverse_op_filter_allocates.
  - unfold wo. rewrite traverse_valid_strings by done. simpl.
    intros l (p & Hp & Hl)%elem_of_concat_map.
    by apply (leaves_dom h p self).
Qed.

Lemma traverse_filter_keeps_shape_witness :
  closed tree ∧ root ∈ dom tree ∧ ["c"; "cc"] ≠ [] ∧
  Forall (fun p => valid_path p = true) ["c"; "cc"] ∧
  contents (traverse root (PyList (map PyStr ["c"; "cc"]))
              (Some (fun _ => true)) tree) =
  map (List.filter (fun _ => true))
    (contents (traverse root (PyList (map PyStr ["c"; "cc"])) None tree)) ∧
  length (r_yields (traverse root (PyList (map PyStr ["c"; "cc"]))
                      (Some (fun _ => true)) tree)) =
  length (r_yields (traverse root (PyList (map PyStr ["c"; "cc"])) None tree)).
Proof.
  assert (root ∈ dom tree) as Hd by (apply tree_has; unfold root; lia).
  assert (Forall (fun p => valid_path p = true) ["c"; "cc"]) as Hv
    by (repeat constructor).
  assert (["c"; "cc"] ≠ []) as Hne by discriminate.
  split; [exact tree_closed|]. split; [exact Hd|].
  split; [exact Hne|]. split; [exact Hv|].
  destruct (traverse_filter_keeps_shape root ["c"; "cc"] (fun _ => true) tree
              tree_closed Hd Hne Hv) as (Hk & Hn & _).
  split; [exact Hk|exact Hn].
Defined.

(** X15.  A batch size so large that the floating-point quotient
    [N / batch_size] underflows to zero (at least [N * 2^1075] for a
    collection of [N > 0] documents): the default mode yields no chunk and
    raises nothing, so no document is handed out, while the legacy mode,
    which counts documents instead of dividing, yields the documents it
    keeps in one chunk. *)
Theorem batch_quotient_underflow (self : loc) (batch_size : Z) (sh : bool)
    (rng : list nat → list nat) (h : Store) :
  deref h self ≠ [] →
  (Z.of_nat (length (deref h self)) * 2 ^ 1075 ≤ batch_size)%Z →
  batch self batch_size PyNone None sh rng h = mkRun h [] None ∧
  ∀ a, a ≠ "" → List.filter (keeps (Some a)) (deref h self) ≠ [] →
       contents (batch self batch_size PyNone (Some a) sh rng h) =
       [List.filter (keeps (Some a)) (deref h self)].
Proof.
  intros Hne Hmin.
  assert (0 < length (deref h self)) as Hlen
    by (destruct (deref h self); simpl; [done|lia]).
  assert ((0 < 2 ^ 1075)%Z) as Hpow by reflexivity.
  assert ((Z.of_nat (length (deref h self)) ≤ batch_size)%Z) as Hle by nia.
  assert ((0 < batch_size)%Z) as Hbs by lia.
  split; [by apply batch_default_underflow|].
  intros a Ha Hkept.
  assert (attr_given (Some a) = true) as Hg.
  { simpl. apply negb_true_iff. by apply String.eqb_neq. }
  destruct (batch_legacy_run self batch_size PyNone (Some a) sh rng h h self
              Hbs Hg eq_refl) as [_ ->].
  pose proof (List.filter_length_le (keeps (Some a)) (deref h self)) as Hf.
  apply slices_small; [|lia].
  destruct (List.filter (keeps (Some a)) (deref h self)); simpl; [done|lia].
Qed.

Lemma batch_quotient_underflow_witness :
  deref tree 10 ≠ [] ∧
  (Z.of_nat (length (deref tree 10%nat)) * 2 ^ 1075 ≤ 2 ^ 1100)%Z ∧
  batch 10 (2 ^ 1100) PyNone None false id tree = mkRun tree [] None.
Proof.
  assert (deref tree 10 ≠ []) as Hne by (vm_compute; discriminate).
  assert ((Z.of_nat (length (deref tree 10%nat)) * 2 ^ 1075 ≤ 2 ^ 1100)%Z)
    as Hmin by (apply Z.leb_le; vm_compute; reflexivity).
  split; [exact Hne|]. split; [exact Hmin|].
  exact (proj1 (batch_quotient_underflow 10 (2 ^ 1100) false id tree Hne Hmin)).
Defined.
